(** * Type-erased interfaces: the trait manager, the drawable wrapper and the
      animal wrapper

    A shallow embedding of three C++ programs of the repository:

    - the trait-manager program ([TraitManager], [BaseInterface],
      [SideEffectsInterface], [cast_to_interface], [AddOp], [SubOp],
      [LoadOp]), in module [Traits];
    - [concept-based-polymorphism/external.cpp], first program
      ([DrawableConcept], [DrawableTraits::Model], [Drawable]), in module
      [External];
    - [concept-based-polymorphism/external.cpp], second program
      ([AnimalConcept], [AnimalModel], [Animal]), in module [Zoo].

    Objects live in an explicit memory; pointers to objects are addresses,
    [0] is [nullptr], and a [void*] also carries the offset of the
    subobject it points to.  Template parameters become ordinary
    arguments. *)

From stdpp Require Import gmap strings list fin_maps.

Local Open Scope string_scope.

(** ** Pointers and exceptions, common to the three programs *)

Definition nullptr : N := 0%N.

(** [std::runtime_error(what)]. *)
Inductive Exception : Type :=
  | runtime_error (what : string).

Definition what (e : Exception) : string :=
  match e with runtime_error w => w end.

(** ** Standard output, common to the two wrapper programs *)

(** What has been written to [std::cout] so far. *)
Definition Stdout : Type := string.

Definition newline : string := String (Ascii.ascii_of_nat 10) EmptyString.

(** [std::cout << s] *)
Definition print (s : string) (out : Stdout) : Stdout := out ++ s.

(** A [void] member call on a wrapper: it completes with the new output, or
    it dereferences a null [pImpl]. *)
Inductive Run : Type :=
  | Done (out : Stdout)
  | NullDereference.

Module Traits.

Section WithFields.

(** The data members a concrete operation class may add to its
    [TraitManager] base.  [AddOp], [SubOp] and [LoadOp] add none. *)
Context {Fields : Type}.

(** An interface class [I] (a [BaseInterface<I, ITraits>]) is named by a
    string; its nested class [I::Trait] is the slot type for it. *)
Definition Interface : Type := string.

Definition SideEffectsInterface : Interface := "SideEffectsInterface".

(** A concrete class [class C : public TraitManager<C, Traits...>] with a
    member [bool hasSideEffect()].  [class_traits] is the pack [Traits...],
    each [I::Trait] written as [I].  [base_offset] is where the
    [TraitManager] base subobject lies within an object of the class: [0]
    for a class that has no virtual member and no base before it (the three
    of the program), more for a class that starts with a vptr or with
    another base. *)
Record OpClass : Type := {
  class_name : string;
  class_traits : list Interface;
  base_offset : N;
  class_hasSideEffect : Fields -> bool
}.

(** A [void*]: the address of a complete object and the offset of the
    subobject pointed to within it. *)
Record VoidPtr : Type := { obj : N; off : N }.

(** The conversion of a pointer to the [TraitManager<Derived, Traits...>]
    base of the object at [x] to [void*]: it points [base_offset] into the
    object. *)
Definition to_void (Derived : OpClass) (x : N) : VoidPtr :=
  {| obj := x; off := base_offset Derived |}.

(** [BaseInterface<I, Traits>::Trait]: one data member, [vconcept]. *)
Record Trait : Type := { vconcept : N }.

(** An object of dynamic type [Traits::Model<ConcreteOp>] for the traits
    class of interface [model_iface]: what the vtable pointer of a [Concept]
    determines. *)
Record ModelObj : Type := {
  model_iface : Interface;
  model_class : OpClass
}.

(** A complete object of class [dyn_class]: its own data members and the
    [std::tuple<Traits...> traits] of its [TraitManager] base subobject. *)
Record Object : Type := {
  dyn_class : OpClass;
  fields : Fields;
  traits : list Trait
}.

Inductive Cell : Type :=
  | CModel (c : ModelObj)
  | CObject (o : Object).

(** The memory: live objects by address. *)
Abbreviation Memory := (gmap N Cell).

(** ** Outcomes of running a piece of the program

    A call returns, throws, has undefined behaviour (null or dangling
    dereference, a [static_cast] to the wrong class, a double [delete]), or
    never runs because its instantiation is ill-formed. *)
Inductive Outcome (A : Type) : Type :=
  | Returns (a : A) (m : Memory)
  | Throws (e : Exception) (m : Memory)
  | Undefined
  | IllFormed.

Arguments Returns {A} a m.
Arguments Throws {A} e m.
Arguments Undefined {A}.
Arguments IllFormed {A}.

Definition Exec (A : Type) : Type := Memory -> Outcome A.

Definition ret {A} (a : A) : Exec A := fun m => Returns a m.

Definition bind {A B} (c : Exec A) (k : A -> Exec B) : Exec B :=
  fun m =>
    match c m with
    | Returns a m' => k a m'
    | Throws e m' => Throws e m'
    | Undefined => Undefined
    | IllFormed => IllFormed
    end.

Definition throw {A} (e : Exception) : Exec A := fun m => Throws e m.
Definition undefined {A} : Exec A := fun _ => Undefined.
Definition ill_formed {A} : Exec A := fun _ => IllFormed.

Notation "'do' x <- c ;; k" := (bind c (fun x => k))
  (at level 10, x name, c at level 99, k at level 200).

(** Dereferencing a pointer to a class object. *)
Definition load_object (p : N) : Exec Object :=
  fun m =>
    match m !! p with
    | Some (CObject o) => Returns o m
    | _ => Undefined
    end.

(** Dereferencing a [Concept*]. *)
Definition load_model (p : N) : Exec ModelObj :=
  fun m =>
    match m !! p with
    | Some (CModel c) => Returns c m
    | _ => Undefined
    end.

(** Writing the [traits] member of the object at [p]. *)
Definition store_traits (p : N) (ts : list Trait) : Exec unit :=
  fun m =>
    match m !! p with
    | Some (CObject o) =>
        Returns tt (<[p := CObject {| dyn_class := dyn_class o;
                                       fields := fields o;
                                       traits := ts |}]> m)
    | _ => Undefined
    end.

(** An address that is neither null nor in use. *)
Definition fresh_addr (m : Memory) : N := fresh ({[nullptr]} ∪ dom m).

(** [new Traits::Model<ConcreteType>()] *)
Definition new_Model (I : Interface) (ConcreteType : OpClass) : Exec N :=
  fun m =>
    let p := fresh_addr m in
    Returns p (<[p := CModel {| model_iface := I;
                                 model_class := ConcreteType |}]> m).

(** [delete p] for a [Concept* p]: nothing for null, undefined unless [p]
    points to a live model. *)
Definition delete_Model (p : N) : Exec unit :=
  fun m =>
    if decide (p = nullptr) then Returns tt m
    else match m !! p with
         | Some (CModel _) => Returns tt (delete p m)
         | _ => Undefined
         end.

(** ** [BaseInterface<DerivedInterface, Traits>::Trait] *)

(** [Trait::initialize<ConcreteType>()] on the slot [t] of interface [I]:
    [vconcept = new typename Traits::template Model<ConcreteType>();] *)
Definition initialize (I : Interface) (ConcreteType : OpClass) (t : Trait)
  : Exec Trait :=
  do p <- new_Model I ConcreteType ;;
  ret {| vconcept := p |}.

(** [Trait::getConcept()] *)
Definition getConcept (t : Trait) : N := vconcept t.

(** [Trait::~Trait()]: [delete vconcept;] *)
Definition Trait_dtor (t : Trait) : Exec unit := delete_Model (vconcept t).

(** ** [BaseInterface]: the handle, an entity pointer and a concept pointer *)
Record Handle : Type := BaseInterface { entity : VoidPtr; impl : N }.

Definition getImpl (h : Handle) : N := impl h.
Definition getEntity (h : Handle) : VoidPtr := entity h.

(** ** [SideEffectsInterfaceTraits] *)

(** [Model<ConcreteOp>::hasSideEffect(void* op)]: the unchecked
    [static_cast<ConcreteOp*>(op)] leaves the address as it is, so the call
    [concreteOp->hasSideEffect()] is defined only when [op] points to the
    start of a live object that is a [ConcreteOp]; a pointer into the
    object (a base subobject that is not at its start) makes it undefined
    behaviour. *)
Definition Model_hasSideEffect (ConcreteOp : OpClass) (op : VoidPtr)
  : Exec bool :=
  if N.eqb (off op) 0 then
    do o <- load_object (obj op) ;;
    if String.eqb (class_name (dyn_class o)) (class_name ConcreteOp)
    then ret (class_hasSideEffect ConcreteOp (fields o))
    else undefined
  else undefined.

(** The virtual call [c->hasSideEffect(op)] through a
    [SideEffectsInterfaceTraits::Concept* c]: dispatch on the dynamic type
    of the object at [c]. *)
Definition Concept_hasSideEffect (c : N) (op : VoidPtr) : Exec bool :=
  do model <- load_model c ;;
  if String.eqb (model_iface model) SideEffectsInterface
  then Model_hasSideEffect (model_class model) op
  else undefined.

(** [SideEffectsInterface::hasSideEffect()]:
    [return getImpl()->hasSideEffect(getEntity());] *)
Definition hasSideEffect (h : Handle) : Exec bool :=
  Concept_hasSideEffect (getImpl h) (getEntity h).

(** The direct member call [x->hasSideEffect()] on an object of static
    class [C]. *)
Definition direct_hasSideEffect (C : OpClass) (x : N) : Exec bool :=
  do o <- load_object x ;;
  ret (class_hasSideEffect C (fields o)).

(** ** [TraitManager<Derived, Traits...>] *)

(** Position of the first [I] in a pack. *)
Fixpoint index_of (I : Interface) (pack : list Interface) : option nat :=
  match pack with
  | [] => None
  | J :: pack' =>
      if String.eqb I J then Some 0 else S <$> index_of I pack'
  end.

(** Number of occurrences of [I] in a pack. *)
Fixpoint count_type (I : Interface) (pack : list Interface) : nat :=
  match pack with
  | [] => 0
  | J :: pack' =>
      if String.eqb I J then S (count_type I pack') else count_type I pack'
  end.

(** [std::get<I::Trait>(traits)]: ill-formed unless [I::Trait] occurs
    exactly once in the pack; otherwise the element at that position. *)
Definition get_by_type (I : Interface) (pack : list Interface)
    (tup : list Trait) : Exec Trait :=
  if Nat.eqb (count_type I pack) 1 then
    match index_of I pack with
    | Some i =>
        match tup !! i with
        | Some t => ret t
        | None => undefined
        end
    | None => ill_formed
    end
  else ill_formed.

(** [initTraits(std::index_sequence<Is...>)]:
    [(std::get<Is>(traits).template initialize<Derived>(), ...);]
    An index outside the tuple is ill-formed. *)
Fixpoint initTraits (Derived : OpClass) (this : N) (Is : list nat)
  : Exec unit :=
  match Is with
  | [] => ret tt
  | i :: Is' =>
      do o <- load_object this ;;
      match class_traits Derived !! i, traits o !! i with
      | Some Ti, Some t =>
          do t' <- initialize Ti Derived t ;;
          do _ <- store_traits this (<[i := t']> (traits o)) ;;
          initTraits Derived this Is'
      | _, _ => ill_formed
      end
  end.

(** [TraitManager()]:
    [initTraits(std::index_sequence_for<Traits...>{});] *)
Definition TraitManager (Derived : OpClass) (this : N) : Exec unit :=
  initTraits Derived this (seq 0 (length (class_traits Derived))).

(** [getTraitConcept<Trait>()]:
    [return std::get<Trait>(traits).getConcept();]
    Whether [std::get<Trait>] is well-formed is settled when the member is
    instantiated, before anything runs and whatever [this] is. *)
Definition getTraitConcept (Derived : OpClass) (I : Interface) (this : N)
  : Exec N :=
  if Nat.eqb (count_type I (class_traits Derived)) 1 then
    do o <- load_object this ;;
    do t <- get_by_type I (class_traits Derived) (traits o) ;;
    ret (getConcept t)
  else ill_formed.

(** ** [cast_to_interface<Interface>], applied to a pointer to the
    [TraitManager<Derived, Traits...>] base of the object at [animal]

    The fold [(std::is_same_v<Traits, typename Interface::Trait> || ...)]
    decides between the two branches of the [if constexpr].  The handle
    stores the base pointer [animal] itself, converted to [void*]. *)
Definition declares (Derived : OpClass) (I : Interface) : bool :=
  existsb (String.eqb I) (class_traits Derived).

Definition cast_to_interface (I : Interface) (Derived : OpClass) (animal : N)
  : Exec Handle :=
  if declares Derived I then
    do vconcept <- getTraitConcept Derived I animal ;;
    ret (BaseInterface (to_void Derived animal) vconcept)
  else
    throw (runtime_error "Op does not implement interface").

(** ** Lifetime of a concrete object *)

(** The definition [C x;] of a variable of class [C] whose own members are
    [f]: storage at a fresh address, the [traits] tuple value-initialised
    (every [vconcept] null), then the constructor body. *)
Definition declare (C : OpClass) (f : Fields) : Exec N :=
  fun m =>
    let this := fresh_addr m in
    let blank :=
      {| dyn_class := C; fields := f;
         traits := replicate (length (class_traits C))
                             {| vconcept := nullptr |} |} in
    bind (TraitManager C this) (fun _ => ret this)
         (<[this := CObject blank]> m).

(** The tuple's destructor runs [~Trait()] on every slot. *)
Fixpoint destroy_traits (ts : list Trait) : Exec unit :=
  match ts with
  | [] => ret tt
  | t :: ts' => do _ <- Trait_dtor t ;; destroy_traits ts'
  end.

(** End of the lifetime of the object at [this]: its slots are destroyed
    and its storage released. *)
Definition destroy (this : N) : Exec unit :=
  do o <- load_object this ;;
  do _ <- destroy_traits (traits o) ;;
  fun m => Returns tt (delete this m).

(** ** Well-formed memories

    [sound]: every slot of every live object is either still null or points
    to a live [Model<C>] of its own interface, [C] the class of the object,
    and no model is the target of two slots.  [initialised]: no slot is
    null. *)
Definition points_to_Model (m : Memory) (p : N) (Ti : Interface)
    (C : OpClass) : Prop :=
  m !! p = Some (CModel {| model_iface := Ti; model_class := C |}).

Record sound (m : Memory) : Prop := {
  sound_null : m !! nullptr = None;
  sound_shape : forall x o,
    m !! x = Some (CObject o) ->
    length (traits o) = length (class_traits (dyn_class o));
  sound_slot : forall x o i Ti t,
    m !! x = Some (CObject o) ->
    class_traits (dyn_class o) !! i = Some Ti ->
    traits o !! i = Some t ->
    vconcept t <> nullptr ->
    points_to_Model m (vconcept t) Ti (dyn_class o);
  sound_unshared : forall x y ox oy i j tx ty,
    m !! x = Some (CObject ox) ->
    m !! y = Some (CObject oy) ->
    traits ox !! i = Some tx ->
    traits oy !! j = Some ty ->
    vconcept tx <> nullptr ->
    vconcept tx = vconcept ty ->
    x = y /\ i = j
}.

Definition initialised (m : Memory) : Prop :=
  forall x o t, m !! x = Some (CObject o) -> t ∈ traits o ->
    vconcept t <> nullptr.

(** [x] is the address of a live object of class [T]. *)
Definition instance_of (m : Memory) (x : N) (T : OpClass) : Prop :=
  exists o, m !! x = Some (CObject o) /\ dyn_class o = T.

(** The memories a program can be in: it starts with none of these
    objects, defines variables and lets their lifetimes end.  Objects are
    not copied: the program never copies one. *)
Inductive reachable : Memory -> Prop :=
  | reach_start : reachable ∅
  | reach_declare m C f x m' :
      reachable m -> declare C f m = Returns x m' -> reachable m'
  | reach_destroy m x m' :
      reachable m -> destroy x m = Returns tt m' -> reachable m'.

(** A call completed normally. *)
Definition returned {A} (r : Outcome A) : Prop :=
  exists a m, r = Returns a m.

(** The addresses the slots of an object hold. *)
Definition targets (o : Object) : list N := vconcept <$> traits o.

(** Some slot of some live object points to [p]. *)
Definition referenced (m : Memory) (p : N) : Prop :=
  exists x o, m !! x = Some (CObject o) /\ p ∈ targets o.

(** No model is allocated without a slot pointing to it. *)
Definition leak_free (m : Memory) : Prop :=
  forall p c, m !! p = Some (CModel c) -> referenced m p.

End WithFields.

Notation "'do' x <- c ;; k" := (bind c (fun x => k))
  (at level 10, x name, c at level 99, k at level 200).

Arguments Returns {Fields A} a m.
Arguments Throws {Fields A} e m.
Arguments Undefined {Fields A}.
Arguments IllFormed {Fields A}.
Arguments OpClass : clear implicits.
Arguments Object : clear implicits.
Arguments ModelObj : clear implicits.
Arguments Cell : clear implicits.

(** ** The three operations of the program; none has data members *)

Definition AddOp : OpClass unit :=
  {| class_name := "AddOp";
     class_traits := [SideEffectsInterface];
     base_offset := 0;
     class_hasSideEffect := fun _ => false |}.

Definition SubOp : OpClass unit :=
  {| class_name := "SubOp";
     class_traits := [SideEffectsInterface];
     base_offset := 0;
     class_hasSideEffect := fun _ => false |}.

Definition LoadOp : OpClass unit :=
  {| class_name := "LoadOp";
     class_traits := [SideEffectsInterface];
     base_offset := 0;
     class_hasSideEffect := fun _ => true |}.

(** The three variables [addOp], [subOp] and [loadOp] defined at the start
    of [main], and the memory they leave. *)
Definition main_variables : Exec (N * N * N) :=
  do addOp <- declare AddOp tt ;;
  do subOp <- declare SubOp tt ;;
  do loadOp <- declare LoadOp tt ;;
  ret (addOp, subOp, loadOp).

Definition main_memory : gmap N (Cell unit) :=
  match main_variables ∅ with
  | Returns _ m => m
  | _ => ∅
  end.

(** A memory with another history: [subOp] has been destroyed and a second
    [AddOp] defined. *)
Definition later_memory : gmap N (Cell unit) :=
  match (do _ <- destroy 3 ;; declare AddOp tt) main_memory with
  | Returns _ m => m
  | _ => ∅
  end.

(** A class that lists the side-effect trait twice in its pack (the program
    has none; [TraitManager] accepts any pack). *)
Definition TwiceOp : OpClass unit :=
  {| class_name := "TwiceOp";
     class_traits := [SideEffectsInterface; SideEffectsInterface];
     base_offset := 0;
     class_hasSideEffect := fun _ => false |}.

(** A class with a virtual destructor (the program has none; [TraitManager]
    accepts any class): its vptr comes first and the [TraitManager] base
    after it, 8 bytes into the object.  It has two members [a] and [b], and
    [hasSideEffect()] returns [a]. *)
Definition VirtOp : OpClass (bool * bool) :=
  {| class_name := "VirtOp";
     class_traits := [SideEffectsInterface];
     base_offset := 8;
     class_hasSideEffect := fun ab => fst ab |}.

(** An interface that none of the three operations declares (the program
    defines no second interface; the cast accepts any). *)
Definition MemoryEffectsInterface : Interface := "MemoryEffectsInterface".

(** ** What an error message says *)

(** [name] occurs in [msg]. *)
Definition mentions (name msg : string) : bool :=
  match String.index 0 name msg with
  | Some _ => true
  | None => false
  end.

(** The exception names both the class and the interface of a request. *)
Definition reports {Fields} (e : Exception) (T : OpClass Fields)
    (I : Interface) : bool :=
  mentions (class_name T) (what e) && mentions I (what e).

End Traits.

(** * [concept-based-polymorphism/external.cpp]: [Drawable] *)

Module External.

(** ** External types: [render()], no [draw()] *)

Inductive ExternalCircle : Type := mkExternalCircle.
Inductive ExternalSquare : Type := mkExternalSquare.

Definition ExternalCircle_render (c : ExternalCircle) (out : Stdout) : Stdout :=
  print ("Rendering a Circle (External)." ++ newline) out.

Definition ExternalSquare_render (s : ExternalSquare) (out : Stdout) : Stdout :=
  print ("Rendering a Square (External)." ++ newline) out.

(** A type conforms when it has a member [draw() const]. *)
Class Conforming (T : Type) : Type := draw : T -> Stdout -> Stdout.

(** The conforming internal type. *)
Inductive InternalTriangle : Type := mkInternalTriangle.

#[export] Instance InternalTriangle_draw : Conforming InternalTriangle :=
  fun _ out => print ("Drawing a Triangle (Internal, Conforming)." ++ newline) out.

(** ** [DrawableConcept] and the models of [DrawableTraits]

    The dynamic type of a [DrawableConcept] object is one of the
    instantiations of [DrawableTraits::Model]: the generic template, holding
    an [item] of a conforming type, or one of the two explicit
    specialisations. *)
Inductive DrawableConcept : Type :=
  | Model_generic {T : Type} `{Conforming T} (item : T)
  | Model_ExternalCircle (circle : ExternalCircle)
  | Model_ExternalSquare (square : ExternalSquare).

(** The virtual [draw() const]: the override of the dynamic type. *)
Definition DrawableConcept_draw (c : DrawableConcept) (out : Stdout) : Stdout :=
  match c with
  | Model_generic item => draw item out
  | Model_ExternalCircle circle => ExternalCircle_render circle out
  | Model_ExternalSquare square => ExternalSquare_render square out
  end.

(** [DrawableTraits::Model<T>(t)]: the specialisation for exactly [T] when
    there is one, the generic template otherwise. *)
Class ModelFor (T : Type) : Type := Model : T -> DrawableConcept.

#[export] Instance Model_of_ExternalCircle : ModelFor ExternalCircle :=
  Model_ExternalCircle.
#[export] Instance Model_of_ExternalSquare : ModelFor ExternalSquare :=
  Model_ExternalSquare.
#[export] Instance Model_of_Conforming (T : Type) `{Conforming T}
  : ModelFor T | 10 := fun item => Model_generic item.

(** ** The wrapper: [std::unique_ptr<DrawableConcept> pImpl], owning its
    model or null *)
Record Drawable : Type := { pImpl : option DrawableConcept }.

(** [Drawable(T item)]:
    [pImpl = std::make_unique<DrawableTraits::Model<T>>(std::move(item));] *)
Definition Drawable_of {T : Type} `{ModelFor T} (item : T) : Drawable :=
  {| pImpl := Some (Model item) |}.

(** The implicit move constructor: the new wrapper takes the model, the
    source is left with a null [pImpl]. *)
Definition Drawable_move (d : Drawable) : Drawable * Drawable :=
  ({| pImpl := pImpl d |}, {| pImpl := None |}).

(** The call [p->draw()] through a [unique_ptr]. *)
Definition call_draw (p : option DrawableConcept) (out : Stdout) : Run :=
  match p with
  | Some c => Done (DrawableConcept_draw c out)
  | None => NullDereference
  end.

(** [Drawable::draw() const]: [if (pImpl) pImpl->draw();] *)
Definition Drawable_draw (d : Drawable) (out : Stdout) : Run :=
  if bool_decide (is_Some (pImpl d)) then call_draw (pImpl d) out
  else Done out.

(** [new_scene.emplace_back(item)] on a [std::vector<Drawable>]. *)
Definition emplace_back {T : Type} `{ModelFor T} (scene : list Drawable)
    (item : T) : list Drawable :=
  scene ++ [Drawable_of item].

(** The loop of [main]:
    [for (const auto& item : new_scene) { item.draw(); }] *)
Fixpoint draw_scene (scene : list Drawable) (out : Stdout) : Run :=
  match scene with
  | [] => Done out
  | item :: rest =>
      match Drawable_draw item out with
      | Done out' => draw_scene rest out'
      | NullDereference => NullDereference
      end
  end.

End External.

(** * [concept-based-polymorphism/external.cpp]: [Animal] *)

Module Zoo.

(** A type fits when it has a member [makeNoise() const]. *)
Class Noisy (T : Type) : Type := makeNoise : T -> Stdout -> Stdout.

Inductive Dog : Type := mkDog.
Inductive Cat : Type := mkCat.

#[export] Instance Dog_makeNoise : Noisy Dog :=
  fun _ out => print ("Woof! 🐶" ++ newline) out.
#[export] Instance Cat_makeNoise : Noisy Cat :=
  fun _ out => print ("Meow. 😼" ++ newline) out.

(** [AnimalConcept]: the dynamic type is an [AnimalModel<ConcreteAnimal>]
    holding [animal]. *)
Inductive AnimalConcept : Type :=
  | AnimalModel {ConcreteAnimal : Type} `{Noisy ConcreteAnimal}
      (animal : ConcreteAnimal).

(** The virtual [makeNoise() const]: [animal.makeNoise();] *)
Definition AnimalConcept_makeNoise (c : AnimalConcept) (out : Stdout) : Stdout :=
  match c with
  | AnimalModel animal => makeNoise animal out
  end.

Record Animal : Type := { pImpl : option AnimalConcept }.

(** [Animal(T animal)]:
    [pImpl(std::make_unique<AnimalModel<T>>(std::move(animal)))] *)
Definition Animal_of {T : Type} `{Noisy T} (animal : T) : Animal :=
  {| pImpl := Some (AnimalModel animal) |}.

(** The implicit move constructor. *)
Definition Animal_move (a : Animal) : Animal * Animal :=
  ({| pImpl := pImpl a |}, {| pImpl := None |}).

(** The call [p->makeNoise()] through a [unique_ptr]. *)
Definition call_makeNoise (p : option AnimalConcept) (out : Stdout) : Run :=
  match p with
  | Some c => Done (AnimalConcept_makeNoise c out)
  | None => NullDereference
  end.

(** [Animal::makeNoise() const]: [if (pImpl) { pImpl->makeNoise(); }] *)
Definition Animal_makeNoise (a : Animal) (out : Stdout) : Run :=
  if bool_decide (is_Some (pImpl a)) then call_makeNoise (pImpl a) out
  else Done out.

(** [zoo.emplace_back(animal)] on a [std::vector<Animal>]. *)
Definition emplace_back {T : Type} `{Noisy T} (zoo : list Animal)
    (animal : T) : list Animal :=
  zoo ++ [Animal_of animal].

(** The loop of [main]:
    [for (const auto& animal : zoo) { animal.makeNoise(); }] *)
Fixpoint noise_of_zoo (zoo : list Animal) (out : Stdout) : Run :=
  match zoo with
  | [] => Done out
  | animal :: rest =>
      match Animal_makeNoise animal out with
      | Done out' => noise_of_zoo rest out'
      | NullDereference => NullDereference
      end
  end.

End Zoo.


(** * Properties of the trait manager *)

Module TraitsFacts.

Import Traits.

Section WithFields.

Context {Fields : Type}.

Local Abbreviation Mem := (gmap N (Cell Fields)).

Implicit Types (m : Mem) (T C : OpClass Fields) (x y p : N).

(** ** Allocation *)

Lemma fresh_addr_not_null m : fresh_addr m <> nullptr.
Proof.
  unfold fresh_addr. intros E.
  pose proof (is_fresh ({[nullptr]} ∪ dom m)) as Hf.
  rewrite E in Hf. set_solver.
Qed.

Lemma fresh_addr_unused m : m !! fresh_addr m = None.
Proof.
  unfold fresh_addr.
  pose proof (is_fresh ({[nullptr]} ∪ dom m)) as Hf.
  apply not_elem_of_dom. set_solver.
Qed.

(** ** The invariant is kept by every memory operation *)

Lemma sound_empty : sound (∅ : Mem).
Proof.
  split; intros *; rewrite ?lookup_empty; done.
Qed.

Lemma initialised_empty : initialised (∅ : Mem).
Proof. intros x o t. rewrite lookup_empty. done. Qed.

(** A slot that is not null points to a live model. *)
Lemma slot_target_live m x o t :
  sound m -> m !! x = Some (CObject o) -> t ∈ traits o ->
  vconcept t <> nullptr ->
  exists Ti, points_to_Model m (vconcept t) Ti (dyn_class o).
Proof.
  intros Hs Hx Ht Hn.
  apply list_elem_of_lookup in Ht as [i Hi].
  assert (i < length (class_traits (dyn_class o))) as Hlt.
  { rewrite <- (sound_shape m Hs x o Hx). by eapply lookup_lt_Some. }
  apply lookup_lt_is_Some in Hlt as [Ti HTi].
  exists Ti. by eapply sound_slot.
Qed.

(** No slot points to an address that holds no model. *)
Lemma unused_unreferenced m p x o t :
  sound m -> m !! p = None -> p <> nullptr ->
  m !! x = Some (CObject o) -> t ∈ traits o -> vconcept t <> p.
Proof.
  intros Hs Hp Hn Hx Ht E.
  destruct (slot_target_live m x o t Hs Hx Ht) as [Ti HTi]; [congruence|].
  unfold points_to_Model in HTi. congruence.
Qed.

Lemma sound_alloc m p c :
  sound m -> m !! p = None -> p <> nullptr ->
  sound (<[p := CModel c]> m).
Proof.
  intros Hs Hp Hn. split.
  - rewrite lookup_insert_ne; [apply Hs | done].
  - intros x o Hx. destruct (decide (p = x)) as [->|Hne].
    + rewrite lookup_insert_eq in Hx. done.
    + rewrite lookup_insert_ne in Hx by done. by eapply sound_shape.
  - intros x o i Ti t Hx HTi Ht Hnn.
    destruct (decide (p = x)) as [->|Hne].
    { rewrite lookup_insert_eq in Hx. done. }
    rewrite lookup_insert_ne in Hx by done.
    pose proof (sound_slot m Hs x o i Ti t Hx HTi Ht Hnn) as Hpt.
    unfold points_to_Model in *.
    rewrite lookup_insert_ne; [done | congruence].
  - intros x y ox oy i j tx ty Hx Hy.
    destruct (decide (p = x)) as [->|Hnx].
    { rewrite lookup_insert_eq in Hx. done. }
    destruct (decide (p = y)) as [->|Hny].
    { rewrite lookup_insert_eq in Hy. done. }
    rewrite lookup_insert_ne in Hx by done.
    rewrite lookup_insert_ne in Hy by done.
    by eapply sound_unshared.
Qed.

Lemma sound_blank m x C f :
  sound m -> m !! x = None -> x <> nullptr ->
  sound (<[x := CObject {| dyn_class := C; fields := f;
                           traits := replicate (length (class_traits C))
                                       {| vconcept := nullptr |} |}]> m).
Proof.
  intros Hs Hx Hn.
  assert (forall i t, replicate (length (class_traits C))
            {| vconcept := nullptr |} !! i = Some t -> vconcept t = nullptr)
    as Hblank.
  { intros i t [-> _]%lookup_replicate. done. }
  split.
  - rewrite lookup_insert_ne; [apply Hs | done].
  - intros y o Hy. destruct (decide (x = y)) as [->|Hne].
    + rewrite lookup_insert_eq in Hy. injection Hy as <-. simpl.
      by rewrite length_replicate.
    + rewrite lookup_insert_ne in Hy by done. by eapply sound_shape.
  - intros y o i Ti t Hy HTi Ht Hnn.
    destruct (decide (x = y)) as [->|Hne].
    { rewrite lookup_insert_eq in Hy. injection Hy as <-. simpl in *.
      by apply Hblank in Ht. }
    rewrite lookup_insert_ne in Hy by done.
    pose proof (sound_slot m Hs y o i Ti t Hy HTi Ht Hnn) as Hpt.
    unfold points_to_Model in *.
    rewrite lookup_insert_ne; [done | congruence].
  - intros y z oy oz i j ty tz Hy Hz Hi Hj Hnn E.
    destruct (decide (x = y)) as [->|Hny].
    { rewrite lookup_insert_eq in Hy. injection Hy as <-. simpl in *.
      by apply Hblank in Hi. }
    destruct (decide (x = z)) as [->|Hnz].
    { rewrite lookup_insert_eq in Hz. injection Hz as <-. simpl in *.
      apply Hblank in Hj. congruence. }
    rewrite lookup_insert_ne in Hy by done.
    rewrite lookup_insert_ne in Hz by done.
    by eapply (sound_unshared m Hs y z oy oz i j ty tz).
Qed.

(** Binding slot [i] of the object at [this] to a model that no slot
    refers to yet. *)
Lemma sound_bind_slot m this o i Ti p :
  sound m ->
  m !! this = Some (CObject o) ->
  class_traits (dyn_class o) !! i = Some Ti ->
  points_to_Model m p Ti (dyn_class o) ->
  p <> nullptr ->
  (forall x ox t, m !! x = Some (CObject ox) -> t ∈ traits ox ->
                  vconcept t <> p) ->
  sound (<[this := CObject {| dyn_class := dyn_class o; fields := fields o;
                              traits := <[i := {| vconcept := p |}]> (traits o) |}]> m).
Proof.
  intros Hs Hthis HTi Hp Hn Hfree.
  assert (this <> p) as Htp.
  { intros ->. unfold points_to_Model in Hp. congruence. }
  assert (forall j t, <[i := {| vconcept := p |}]> (traits o) !! j = Some t ->
            (j = i /\ t = {| vconcept := p |}) \/
            (j <> i /\ traits o !! j = Some t)) as Hupd.
  { intros j t Hj. destruct (decide (i = j)) as [->|Hne].
    - left. split; [done|].
      rewrite list_lookup_insert_eq in Hj; [congruence|].
      apply lookup_lt_Some in Hj. by rewrite length_insert in Hj.
    - right. rewrite list_lookup_insert_ne in Hj by done. done. }
  split.
  - destruct (decide (this = nullptr)) as [->|Hne].
    + rewrite (sound_null m Hs) in Hthis. done.
    + rewrite lookup_insert_ne; [apply Hs | done].
  - intros y oy Hy. destruct (decide (this = y)) as [->|Hne].
    + rewrite lookup_insert_eq in Hy. injection Hy as <-. simpl.
      rewrite length_insert. by eapply sound_shape.
    + rewrite lookup_insert_ne in Hy by done. by eapply sound_shape.
  - intros y oy j Tj t Hy HTj Ht Hnn. unfold points_to_Model.
    destruct (decide (this = y)) as [->|Hne].
    + rewrite lookup_insert_eq in Hy. injection Hy as <-. simpl in *.
      apply Hupd in Ht as [[-> ->]|[Hji Ht]]; simpl.
      * rewrite lookup_insert_ne by done.
        assert (Tj = Ti) as -> by congruence. done.
      * pose proof (sound_slot m Hs y o j Tj t Hthis HTj Ht Hnn) as Hpt.
        unfold points_to_Model in Hpt.
        rewrite lookup_insert_ne; [done | congruence].
    + rewrite lookup_insert_ne in Hy by done.
      pose proof (sound_slot m Hs y oy j Tj t Hy HTj Ht Hnn) as Hpt.
      unfold points_to_Model in Hpt.
      rewrite lookup_insert_ne; [done | congruence].
  - intros y z oy oz j k ty tz Hy Hz Hj Hk Hnn E.
    destruct (decide (this = y)) as [->|Hny];
      destruct (decide (y = z)) as [->|Hyz].
    + rewrite lookup_insert_eq in Hy, Hz.
      injection Hy as <-. injection Hz as <-. simpl in *.
      split; [done|].
      apply Hupd in Hj as [[-> ->]|[Hji Hj]];
        apply Hupd in Hk as [[-> ->]|[Hki Hk]]; simpl in *; try done.
      * exfalso. eapply (Hfree z o tz); [done| |done].
        apply list_elem_of_lookup. eauto.
      * exfalso. eapply (Hfree z o ty); [done| |done].
        apply list_elem_of_lookup. eauto.
      * by destruct (sound_unshared m Hs z z o o j k ty tz).
    + rewrite lookup_insert_eq in Hy. injection Hy as <-. simpl in *.
      rewrite lookup_insert_ne in Hz by done.
      apply Hupd in Hj as [[-> ->]|[Hji Hj]]; simpl in *.
      * exfalso. eapply (Hfree z oz tz); [done| |done].
        apply list_elem_of_lookup. eauto.
      * by destruct (sound_unshared m Hs y z o oz j k ty tz).
    + rewrite lookup_insert_ne in Hy by done.
      rewrite lookup_insert_ne in Hz by done.
      by eapply (sound_unshared m Hs z z oy oz j k ty tz).
    + rewrite lookup_insert_ne in Hy by done.
      destruct (decide (this = z)) as [->|Hnz].
      * rewrite lookup_insert_eq in Hz. injection Hz as <-. simpl in *.
        apply Hupd in Hk as [[-> ->]|[Hki Hk]]; simpl in *.
        -- exfalso. eapply (Hfree y oy ty); [done| |done].
           apply list_elem_of_lookup. eauto.
        -- by destruct (sound_unshared m Hs y z oy o j k ty tz).
      * rewrite lookup_insert_ne in Hz by done.
        by eapply (sound_unshared m Hs y z oy oz j k ty tz).
Qed.

(** ** The constructor *)

(** One step of [initTraits]: slot [i] of the object under construction gets
    a model of its own. *)
Lemma init_slot m this o i Ti t :
  sound m ->
  m !! this = Some (CObject o) ->
  class_traits (dyn_class o) !! i = Some Ti ->
  traits o !! i = Some t ->
  let p := fresh_addr m in
  let o1 := {| dyn_class := dyn_class o; fields := fields o;
               traits := <[i := {| vconcept := p |}]> (traits o) |} in
  let m1 := <[this := CObject o1]>
              (<[p := CModel {| model_iface := Ti;
                                model_class := dyn_class o |}]> m) in
  (do t' <- initialize Ti (dyn_class o) t ;;
   store_traits this (<[i := t']> (traits o))) m = Returns tt m1
  /\ sound m1 /\ p <> nullptr /\ m !! p = None
  /\ size m1 = S (size m).
Proof.
  intros Hs Hthis HTi Ht p o1 m1.
  pose proof (fresh_addr_not_null m) as Hn.
  pose proof (fresh_addr_unused m) as Hp. fold p in Hn, Hp.
  assert (this <> p) as Htp by congruence.
  split; [|split; [|split; [done|split; [done|]]]].
  - unfold bind, initialize, bind, new_Model, ret, store_traits. fold p.
    rewrite lookup_insert_ne by done. by rewrite Hthis.
  - set (c := {| model_iface := Ti; model_class := dyn_class o |}).
    assert (sound (<[p := CModel c]> m)) as Hs1 by by apply sound_alloc.
    apply (sound_bind_slot (<[p := CModel c]> m) this o i Ti p); try done.
    + rewrite lookup_insert_ne by congruence. done.
    + unfold points_to_Model. by rewrite lookup_insert_eq.
    + intros x ox t0 Hx Ht0.
      destruct (decide (p = x)) as [->|Hne].
      { rewrite lookup_insert_eq in Hx. done. }
      rewrite lookup_insert_ne in Hx by done.
      by apply (unused_unreferenced m p x ox t0).
  - unfold m1. rewrite map_size_insert_Some.
    + by rewrite map_size_insert_None.
    + rewrite lookup_insert_ne by done. by rewrite Hthis.
Qed.

(** [initTraits] over valid indices completes; it initialises every slot it
    is asked to, leaves the other slots and the other objects alone, and
    allocates one model per index. *)
Lemma initTraits_spec Derived this Is :
  forall m o,
  sound m ->
  m !! this = Some (CObject o) ->
  dyn_class o = Derived ->
  Forall (fun i => i < length (class_traits Derived)) Is ->
  exists m' o',
    initTraits Derived this Is m = Returns tt m'
    /\ sound m'
    /\ m' !! this = Some (CObject o')
    /\ dyn_class o' = Derived /\ fields o' = fields o
    /\ (forall j t, j ∈ Is -> traits o' !! j = Some t ->
                    vconcept t <> nullptr /\ m !! vconcept t = None)
    /\ (forall j, j ∉ Is -> traits o' !! j = traits o !! j)
    /\ (forall y c, m !! y = Some c -> y <> this -> m' !! y = Some c)
    /\ (forall y oy, m' !! y = Some (CObject oy) -> y <> this ->
                     m !! y = Some (CObject oy))
    /\ size m' = size m + length Is.
Proof.
  induction Is as [|i Is' IH]; intros m o Hs Hthis Hcls Hall.
  - exists m, o. simpl. unfold ret.
    do 5 (split; [done|]).
    split; [intros j t Hj; by apply elem_of_nil in Hj|].
    do 3 (split; [done|]). lia.
  - subst Derived. apply Forall_cons in Hall as [Hi Hall].
    pose proof Hi as Hi'.
    apply lookup_lt_is_Some in Hi as [Ti HTi].
    rewrite <- (sound_shape m Hs this o Hthis) in Hi'.
    apply lookup_lt_is_Some in Hi' as [t Ht].
    destruct (init_slot m this o i Ti t Hs Hthis HTi Ht)
      as (Hrun & Hs1 & Hn & Hp & Hsz).
    set (p := fresh_addr m) in *.
    set (o1 := {| dyn_class := dyn_class o; fields := fields o;
                  traits := <[i := {| vconcept := p |}]> (traits o) |}) in *.
    set (m1 := <[this := CObject o1]> _) in *.
    assert (this <> p) as Htp by congruence.
    destruct (IH m1 o1) as (m' & o' & Hrun' & Hs' & Hthis' & Hcls' & Hf' &
                            Hinit & Hkeep & Hframe & Hback & Hsz');
      [done | apply lookup_insert_eq | done | done |].
    exists m', o'. split.
    { simpl. unfold bind at 1, load_object. rewrite Hthis, HTi, Ht.
      unfold bind at 1 2. unfold bind in Hrun.
      destruct (initialize Ti (dyn_class o) t m) as [t' mt| | |]; try done.
      by rewrite Hrun. }
    split; [done|]. split; [done|]. split; [done|]. split; [done|].
    split; [|split; [|split; [|split]]].
    + intros j tj Hj Htj.
      destruct (decide (j ∈ Is')) as [Hin|Hnin].
      * destruct (Hinit j tj Hin Htj) as [Hnn Hnew]. split; [done|].
        destruct (m !! vconcept tj) as [c|] eqn:Hc; [|done].
        unfold m1 in Hnew.
        destruct (decide (vconcept tj = this)) as [E|Hne].
        { rewrite E, lookup_insert_eq in Hnew. done. }
        rewrite lookup_insert_ne in Hnew by done.
        rewrite lookup_insert_ne in Hnew by congruence. congruence.
      * apply elem_of_cons in Hj as [->|Hj]; [|done].
        rewrite (Hkeep i Hnin) in Htj. simpl in Htj.
        rewrite list_lookup_insert_eq in Htj by by eapply lookup_lt_Some.
        by injection Htj as <-.
    + intros j Hj. apply not_elem_of_cons in Hj as [Hji Hj].
      rewrite (Hkeep j Hj). simpl. by rewrite list_lookup_insert_ne.
    + intros y c Hy Hyt. apply Hframe; [|done].
      unfold m1. rewrite lookup_insert_ne by done.
      rewrite lookup_insert_ne; [done | congruence].
    + intros y oy Hy Hyt. apply Hback in Hy; [|done].
      unfold m1 in Hy. rewrite lookup_insert_ne in Hy by done.
      destruct (decide (p = y)) as [<-|Hpy].
      * rewrite lookup_insert_eq in Hy. done.
      * by rewrite lookup_insert_ne in Hy.
    + rewrite Hsz', Hsz. simpl. lia.
Qed.

(** The definition of a variable completes in every sound memory: the new
    object has every slot bound to a model that did not exist before, the
    objects that were there are untouched, and the memory grows by the
    object and one model per declared interface. *)
Lemma declare_spec m C f :
  sound m ->
  exists x m' o,
    declare C f m = Returns x m'
    /\ m !! x = None
    /\ sound m'
    /\ m' !! x = Some (CObject o)
    /\ dyn_class o = C /\ fields o = f
    /\ (forall t, t ∈ traits o ->
                  vconcept t <> nullptr /\ m !! vconcept t = None)
    /\ (forall y c, m !! y = Some c -> m' !! y = Some c)
    /\ (forall y oy, m' !! y = Some (CObject oy) -> y <> x ->
                     m !! y = Some (CObject oy))
    /\ size m' = size m + 1 + length (class_traits C).
Proof.
  intros Hs.
  pose proof (fresh_addr_not_null m) as Hn.
  pose proof (fresh_addr_unused m) as Hx.
  set (x := fresh_addr m) in *.
  set (blank := {| dyn_class := C; fields := f;
                   traits := replicate (length (class_traits C))
                               {| vconcept := nullptr |} |}).
  set (m0 := <[x := CObject blank]> m).
  assert (sound m0) as Hs0 by by apply sound_blank.
  destruct (initTraits_spec C x (seq 0 (length (class_traits C))) m0 blank)
    as (m' & o & Hrun & Hs' & Hx' & Hcls & Hf & Hinit & _ & Hframe & Hback & Hsz);
    [done | apply lookup_insert_eq | done | |].
  { apply Forall_forall. intros i Hi. apply elem_of_seq in Hi. lia. }
  exists x, m', o. split.
  { unfold declare. fold x. fold blank. fold m0.
    unfold bind, TraitManager. by rewrite Hrun. }
  do 5 (split; [done|]).
  assert (forall y c, m !! y = Some c -> m0 !! y = Some c /\ y <> x) as Hext.
  { intros y c Hy. assert (y <> x) by congruence.
    unfold m0. by rewrite lookup_insert_ne. }
  split; [|split; [|split]].
  - intros t Ht. apply list_elem_of_lookup in Ht as [j Hj].
    assert (j ∈ seq 0 (length (class_traits C))) as Hin.
    { apply elem_of_seq. apply lookup_lt_Some in Hj.
      rewrite (sound_shape m' Hs' x o Hx'), Hcls in Hj. lia. }
    destruct (Hinit j t Hin Hj) as [Hnn Hnew]. split; [done|].
    destruct (m !! vconcept t) as [c|] eqn:Hc; [|done].
    apply Hext in Hc as [Hc _]. congruence.
  - intros y c Hy. apply Hext in Hy as [Hy Hne]. by apply Hframe.
  - intros y oy Hy Hne. apply Hback in Hy; [|done].
    unfold m0 in Hy. by rewrite lookup_insert_ne in Hy.
  - rewrite Hsz, length_seq. unfold m0.
    rewrite map_size_insert_None by done. lia.
Qed.

Lemma declare_initialised m C f x m' :
  sound m -> initialised m -> declare C f m = Returns x m' ->
  initialised m'.
Proof.
  intros Hs Hi Hrun.
  destruct (declare_spec m C f Hs)
    as (x' & m'' & o & Hrun' & _ & _ & Hx & _ & _ & Hnew & _ & Hback & _).
  rewrite Hrun in Hrun'. injection Hrun' as <- <-.
  intros y oy t Hy Ht. destruct (decide (y = x)) as [->|Hne].
  - rewrite Hx in Hy. injection Hy as <-. by apply Hnew.
  - apply Hback in Hy; [|done]. by eapply Hi.
Qed.

(** ** The destructor *)

Lemma delete_Model_spec m p m' :
  delete_Model p m = Returns tt m' ->
  (p = nullptr /\ m' = m) \/
  (exists c, m !! p = Some (CModel c) /\ m' = delete p m).
Proof.
  unfold delete_Model. intros H.
  destruct (decide (p = nullptr)) as [->|Hn].
  - left. split; [done|]. by injection H as <-.
  - right. destruct (m !! p) as [[c|o]|] eqn:Hp; try done.
    exists c. split; [done|]. by injection H as <-.
Qed.

(** Destroying slots only removes models the slots point to. *)
Lemma destroy_traits_spec ts :
  forall m m', destroy_traits ts m = Returns tt m' ->
  forall y, m' !! y = m !! y \/
            (m' !! y = None /\ (exists t, t ∈ ts /\ vconcept t = y)
             /\ exists c, m !! y = Some (CModel c)).
Proof.
  induction ts as [|t ts IH]; intros m m' Hrun y.
  - simpl in Hrun. unfold ret in Hrun. injection Hrun as <-. by left.
  - simpl in Hrun. unfold bind, Trait_dtor in Hrun.
    destruct (delete_Model (vconcept t) m) as [[] m1| | |] eqn:Hdel; try done.
    apply delete_Model_spec in Hdel as [[_ ->]|(c & Hc & ->)].
    + destruct (IH m m' Hrun y) as [E|(E & (t' & Ht' & Hv) & Hm)]; [by left|].
      right. split; [done|]. split; [|done].
      exists t'. split; [by apply list_elem_of_further | done].
    + destruct (decide (y = vconcept t)) as [->|Hne].
      * right.
        assert (m' !! vconcept t = None) as Hnone.
        { destruct (IH _ m' Hrun (vconcept t)) as [E|(E & _)]; [|done].
          by rewrite E, lookup_delete_eq. }
        split; [done|]. split; [|by exists c].
        exists t. split; [apply list_elem_of_here | done].
      * destruct (IH _ m' Hrun y) as [E|(E & (t' & Ht' & Hv) & c' & Hm)].
        -- left. by rewrite E, lookup_delete_ne.
        -- right. split; [done|]. split.
           ++ exists t'. split; [by apply list_elem_of_further | done].
           ++ exists c'. by rewrite lookup_delete_ne in Hm.
Qed.

Lemma destroy_spec m x m' :
  sound m -> destroy x m = Returns tt m' ->
  sound m'
  /\ m' !! x = None
  /\ (forall y oy, m' !! y = Some (CObject oy) ->
                   y <> x /\ m !! y = Some (CObject oy)).
Proof.
  intros Hs Hrun. unfold destroy, bind, load_object in Hrun.
  destruct (m !! x) as [[c|o]|] eqn:Hx; try done.
  destruct (destroy_traits (traits o) m) as [[] m1| | |] eqn:Hdt; try done.
  injection Hrun as <-.
  pose proof (destroy_traits_spec (traits o) m m1 Hdt) as Hm1.
  assert (forall y oy, delete x m1 !! y = Some (CObject oy) ->
            y <> x /\ m !! y = Some (CObject oy)) as Hobj.
  { intros y oy Hy. destruct (decide (x = y)) as [->|Hne].
    { by rewrite lookup_delete_eq in Hy. }
    rewrite lookup_delete_ne in Hy by done. split; [done|].
    destruct (Hm1 y) as [E|(E & _)]; congruence. }
  split; [|split; [apply lookup_delete_eq | done]].
  split.
  - destruct (decide (x = nullptr)) as [->|Hne]; [apply lookup_delete_eq|].
    rewrite lookup_delete_ne by done.
    destruct (Hm1 nullptr) as [E|(E & _)]; [|done].
    rewrite E. apply Hs.
  - intros y oy Hy. apply Hobj in Hy as [_ Hy]. by eapply sound_shape.
  - intros y oy i Ti t Hy HTi Ht Hnn. apply Hobj in Hy as [Hyx Hy].
    pose proof (sound_slot m Hs y oy i Ti t Hy HTi Ht Hnn) as Hpt.
    unfold points_to_Model in *.
    assert (x <> vconcept t) as Hxt by congruence.
    rewrite lookup_delete_ne by done.
    destruct (Hm1 (vconcept t)) as [E|(_ & (t' & Ht' & Hv) & _)];
      [congruence|].
    apply list_elem_of_lookup in Ht' as [j Hj].
    assert (vconcept t' <> nullptr) as Hnn' by congruence.
    by destruct (sound_unshared m Hs x y o oy j i t' t Hx Hy Hj Ht Hnn' Hv).
  - intros y z oy oz i j ty tz Hy Hz.
    apply Hobj in Hy as [_ Hy]. apply Hobj in Hz as [_ Hz].
    by eapply sound_unshared.
Qed.

(** ** Every reachable memory is sound and fully initialised *)

Lemma reachable_sound m : reachable m -> sound m /\ initialised m.
Proof.
  induction 1 as [|m C f x m' _ [Hs Hi] Hrun|m x m' _ [Hs Hi] Hrun].
  - split; [apply sound_empty | apply initialised_empty].
  - split; [|by eapply declare_initialised].
    destruct (declare_spec m C f Hs) as (x' & m'' & o & Hrun' & _ & Hs' & _).
    rewrite Hrun in Hrun'. by injection Hrun' as <- <-.
  - destruct (destroy_spec m x m' Hs Hrun) as (Hs' & _ & Hobj).
    split; [done|].
    intros y oy t Hy Ht. apply Hobj in Hy as [_ Hy]. by eapply Hi.
Qed.

(** ** The trait pack *)

Lemma declares_elem_of T I : declares T I = true <-> I ∈ class_traits T.
Proof.
  unfold declares. induction (class_traits T) as [|J pack IH]; simpl.
  - split; [done | by intros ?%elem_of_nil].
  - rewrite orb_true_iff, IH, elem_of_cons, String.eqb_eq. done.
Qed.

Lemma count_type_absent I pack : I ∉ pack -> count_type I pack = 0.
Proof.
  induction pack as [|J pack IH]; simpl; [done|].
  intros [Hne Hnin]%not_elem_of_cons.
  apply String.eqb_neq in Hne. rewrite Hne. by apply IH.
Qed.

(** In a pack without repetition every declared interface occurs once. *)
Lemma count_type_NoDup I pack :
  NoDup pack -> I ∈ pack -> count_type I pack = 1.
Proof.
  induction 1 as [|J pack Hnin Hnd IH]; simpl.
  - by intros ?%elem_of_nil.
  - intros [->|Hin]%elem_of_cons.
    + rewrite String.eqb_refl. by rewrite count_type_absent.
    + assert (I <> J) as Hne by (intros ->; done).
      apply String.eqb_neq in Hne. rewrite Hne. by apply IH.
Qed.

Lemma index_of_lookup I pack i :
  index_of I pack = Some i -> pack !! i = Some I.
Proof.
  revert i. induction pack as [|J pack IH]; intros i; simpl; [done|].
  destruct (String.eqb I J) eqn:E.
  - apply String.eqb_eq in E as ->. by intros [= <-].
  - destruct (index_of I pack) as [k|]; simpl; [|done].
    intros [= <-]. simpl. by apply IH.
Qed.

Lemma index_of_declared I pack :
  I ∈ pack -> is_Some (index_of I pack).
Proof.
  induction pack as [|J pack IH]; simpl.
  - by intros ?%elem_of_nil.
  - intros Hin. destruct (String.eqb I J) eqn:E; [by eexists|].
    apply String.eqb_neq in E.
    apply elem_of_cons in Hin as [->|Hin]; [done|].
    destruct (IH Hin) as [k ->]. by eexists.
Qed.

(** ** The cast *)

(** An undeclared interface: the [else] branch, whatever the pointer and the
    memory. *)
Lemma cast_undeclared m T I x :
  declares T I = false ->
  cast_to_interface I T x m
  = Throws (runtime_error "Op does not implement interface") m.
Proof. intros H. unfold cast_to_interface. by rewrite H. Qed.

(** A declared interface that occurs once in the pack: the cast returns the
    handle that pairs the object with the model of its slot, and leaves the
    memory as it was. *)
Lemma cast_declared m T I x o :
  sound m -> initialised m ->
  m !! x = Some (CObject o) -> dyn_class o = T ->
  I ∈ class_traits T -> count_type I (class_traits T) = 1 ->
  exists c,
    cast_to_interface I T x m = Returns (BaseInterface (to_void T x) c) m
    /\ c <> nullptr
    /\ points_to_Model m c I T.
Proof.
  intros Hs Hi Hx <- Hin Hcount.
  destruct (index_of_declared I _ Hin) as [i Hidx].
  pose proof (index_of_lookup I _ i Hidx) as HI.
  assert (is_Some (traits o !! i)) as [t Ht].
  { apply lookup_lt_is_Some. rewrite (sound_shape m Hs x o Hx).
    by eapply lookup_lt_Some. }
  assert (vconcept t <> nullptr) as Hnn.
  { eapply Hi; [done|]. apply list_elem_of_lookup. eauto. }
  exists (vconcept t). split; [|split; [done | by eapply sound_slot]].
  apply declares_elem_of in Hin.
  unfold cast_to_interface. rewrite Hin.
  unfold bind, getTraitConcept. rewrite Hcount. simpl.
  unfold bind, load_object. rewrite Hx.
  unfold get_by_type. rewrite Hcount. simpl. rewrite Hidx, Ht. done.
Qed.

(** A declared interface that occurs more than once: [std::get] by type is
    ill-formed. *)
Lemma cast_repeated m T I x o :
  m !! x = Some (CObject o) ->
  declares T I = true -> count_type I (class_traits T) <> 1 ->
  cast_to_interface I T x m = IllFormed.
Proof.
  intros Hx Hd Hc. unfold cast_to_interface. rewrite Hd.
  unfold bind, getTraitConcept. apply Nat.eqb_neq in Hc. by rewrite Hc.
Qed.

(** The cast never writes to memory. *)
Lemma cast_pure m T I x h m' :
  cast_to_interface I T x m = Returns h m' -> m' = m.
Proof.
  unfold cast_to_interface, throw. destruct (declares T I); [|done].
  unfold bind, getTraitConcept, get_by_type.
  destruct (Nat.eqb (count_type I (class_traits T)) 1); [|done].
  unfold bind, load_object.
  destruct (m !! x) as [[c|o]|]; try done.
  destruct (index_of I (class_traits T)) as [i|]; [|done].
  destruct (traits o !! i); [|done].
  unfold ret. by intros [= _ <-].
Qed.

(** ** Calls through a handle *)

Lemma hasSideEffect_bound m T x o c :
  points_to_Model m c SideEffectsInterface T ->
  m !! x = Some (CObject o) -> dyn_class o = T ->
  base_offset T = 0%N ->
  hasSideEffect (BaseInterface (to_void T x) c) m
  = Returns (class_hasSideEffect T (fields o)) m.
Proof.
  intros Hc Hx <- Hoff. unfold points_to_Model in Hc.
  unfold hasSideEffect, Concept_hasSideEffect, bind, load_model. simpl.
  rewrite Hc. simpl.
  unfold Model_hasSideEffect, to_void. simpl. rewrite Hoff. simpl.
  unfold bind, load_object. rewrite Hx.
  by rewrite String.eqb_refl.
Qed.

(** The same call when the base is not at the start of the object: the
    [static_cast] in the model yields a pointer that is no [ConcreteOp]. *)
Lemma hasSideEffect_offset_base m T x c :
  points_to_Model m c SideEffectsInterface T ->
  base_offset T <> 0%N ->
  hasSideEffect (BaseInterface (to_void T x) c) m = Undefined.
Proof.
  intros Hc Hoff. unfold points_to_Model in Hc.
  unfold hasSideEffect, Concept_hasSideEffect, bind, load_model. simpl.
  rewrite Hc. simpl.
  unfold Model_hasSideEffect, to_void. simpl.
  apply N.eqb_neq in Hoff. by rewrite Hoff.
Qed.

Lemma hasSideEffect_pure m h b m' :
  hasSideEffect h m = Returns b m' -> m' = m.
Proof.
  unfold hasSideEffect, Concept_hasSideEffect, bind, load_model.
  destruct (m !! getImpl h) as [[c|o]|]; try done.
  destruct (String.eqb _ _); [|done].
  unfold Model_hasSideEffect.
  destruct (N.eqb _ _); [|done].
  unfold bind, load_object.
  destruct (m !! obj (getEntity h)) as [[c'|o]|]; try done.
  destruct (String.eqb _ _); [|done].
  unfold ret. by intros [= _ <-].
Qed.

Lemma direct_hasSideEffect_instance m T x o :
  m !! x = Some (CObject o) ->
  direct_hasSideEffect T x m = Returns (class_hasSideEffect T (fields o)) m.
Proof.
  intros Hx. unfold direct_hasSideEffect, bind, load_object. by rewrite Hx.
Qed.

(** The outcome of a cast on a live object is decided by the pack alone. *)
Lemma cast_returned_iff m T I x :
  sound m -> initialised m -> instance_of m x T ->
  returned (cast_to_interface I T x m)
  <-> I ∈ class_traits T /\ count_type I (class_traits T) = 1.
Proof.
  intros Hs Hi (o & Hx & Hcls).
  destruct (declares T I) eqn:Hd.
  - pose proof Hd as Hin. apply declares_elem_of in Hin.
    destruct (decide (count_type I (class_traits T) = 1)) as [Hc|Hc].
    + destruct (cast_declared m T I x o Hs Hi Hx Hcls Hin Hc) as (c & -> & _).
      split; [done|]. intros _. by eexists _, _.
    + rewrite (cast_repeated m T I x o Hx Hd Hc).
      split; [by intros (? & ? & ?) | by intros [_ ?]].
  - rewrite (cast_undeclared m T I x Hd). split.
    + by intros (? & ? & ?).
    + intros [Hin _]. apply declares_elem_of in Hin. congruence.
Qed.

(** ** The claims on the cast *)

(** X14: for a class [T] whose trait pack (an ordered set: no interface
    twice) declares interface [I], the cast of an instance of [T] to [I]
    returns a handle (it does not throw) and leaves the memory as it was;
    the handle pairs the pointer to the instance's [TraitManager] base with
    the [Model<T>] of [I].  When that base lies at the start of the object,
    the handle's [hasSideEffect()] returns what the direct call of [T]'s
    [hasSideEffect()] on the instance returns; when it does not, the call
    through the handle is undefined behaviour. *)
Theorem cast_declared_forwards m T I x :
  reachable m -> instance_of m x T ->
  I ∈ class_traits T -> NoDup (class_traits T) ->
  exists h,
    cast_to_interface I T x m = Returns h m
    /\ getEntity h = to_void T x
    /\ points_to_Model m (getImpl h) I T
    /\ (I = SideEffectsInterface -> base_offset T = 0%N ->
        exists b, direct_hasSideEffect T x m = Returns b m
                  /\ hasSideEffect h m = Returns b m)
    /\ (I = SideEffectsInterface -> base_offset T <> 0%N ->
        hasSideEffect h m = Undefined).
Proof.
  intros [Hs Hi]%reachable_sound (o & Hx & Hcls) Hin Hnd.
  destruct (cast_declared m T I x o Hs Hi Hx Hcls Hin) as (c & Hcast & _ & Hc).
  { by apply count_type_NoDup. }
  exists (BaseInterface (to_void T x) c). do 3 (split; [done|]). split.
  - intros -> Hoff. exists (class_hasSideEffect T (fields o)). split.
    + by apply direct_hasSideEffect_instance.
    + by apply hasSideEffect_bound.
  - intros -> Hoff. by apply hasSideEffect_offset_base.
Qed.

(** C2: for a class [T] that does not declare interface [I], the cast
    throws the error "Op does not implement interface" and has no effect:
    the memory at the throw is the memory before the call, so the instance,
    its registry and every slot are as they were. *)
Theorem cast_undeclared_throws_unchanged m T I x :
  I ∉ class_traits T ->
  cast_to_interface I T x m
  = Throws (runtime_error "Op does not implement interface") m
  /\ (forall e m', cast_to_interface I T x m = Throws e m' ->
        forall y, m' !! y = m !! y).
Proof.
  intros Hnin.
  assert (declares T I = false) as Hd.
  { destruct (declares T I) eqn:Hd; [|done].
    by apply declares_elem_of in Hd. }
  rewrite (cast_undeclared m T I x Hd). split; [done|].
  by intros e m' [= _ <-].
Qed.

(** C3, as amended: a rejected cast throws [std::runtime_error] with the
    fixed message "Op does not implement interface"; the exception is the
    same whatever class and interface were requested. *)
Theorem cast_error_fixed_message m1 T1 I1 x1 m2 T2 I2 x2 :
  I1 ∉ class_traits T1 -> I2 ∉ class_traits T2 ->
  exists e,
    cast_to_interface I1 T1 x1 m1 = Throws e m1
    /\ cast_to_interface I2 T2 x2 m2 = Throws e m2
    /\ what e = "Op does not implement interface".
Proof.
  intros H1 H2. exists (runtime_error "Op does not implement interface").
  assert (forall T I, I ∉ class_traits T -> declares T I = false) as Hd.
  { intros T I Hnin. destruct (declares T I) eqn:Hd; [|done].
    by apply declares_elem_of in Hd. }
  rewrite (cast_undeclared m1 T1 I1 x1), (cast_undeclared m2 T2 I2 x2)
    by by apply Hd.
  done.
Qed.

(** C6: two casts of the same instance to the same declared interface, one
    after the other, both return; the two handles hold the same entity
    pointer, the pointer to the instance's [TraitManager] base, and the same
    concept pointer, the address of the instance's live [Model<T>] of the
    interface; [hasSideEffect()] has the same outcome on both, and for a
    class whose base lies at the start of the object it returns, the same
    value on both. *)
Theorem cast_twice_indistinguishable m T I x :
  reachable m -> instance_of m x T ->
  I ∈ class_traits T -> NoDup (class_traits T) ->
  exists h1 h2,
    (do a <- cast_to_interface I T x ;;
     do b <- cast_to_interface I T x ;;
     ret (a, b)) m = Returns (h1, h2) m
    /\ getEntity h1 = to_void T x /\ getEntity h2 = to_void T x
    /\ getImpl h1 = getImpl h2
    /\ points_to_Model m (getImpl h1) I T
    /\ hasSideEffect h1 m = hasSideEffect h2 m
    /\ (I = SideEffectsInterface -> base_offset T = 0%N ->
        exists b, hasSideEffect h1 m = Returns b m
                  /\ hasSideEffect h2 m = Returns b m).
Proof.
  intros [Hs Hi]%reachable_sound (o & Hx & Hcls) Hin Hnd.
  destruct (cast_declared m T I x o Hs Hi Hx Hcls Hin) as (c & Hcast & _ & Hc).
  { by apply count_type_NoDup. }
  exists (BaseInterface (to_void T x) c), (BaseInterface (to_void T x) c).
  split; [unfold bind; by rewrite !Hcast|].
  do 5 (split; [done|]).
  intros -> Hoff. exists (class_hasSideEffect T (fields o)).
  by rewrite (hasSideEffect_bound m T x o c Hc Hx Hcls Hoff).
Qed.

(** C7: whether the cast returns is decided by the class and the
    interface alone: for two instances of the same class, in any two
    reachable memories and whatever their data members, the cast of one
    returns exactly when the cast of the other does, namely when the pack
    holds the interface once. *)
Theorem cast_success_static m1 m2 T I x y :
  reachable m1 -> reachable m2 ->
  instance_of m1 x T -> instance_of m2 y T ->
  (returned (cast_to_interface I T x m1)
   <-> returned (cast_to_interface I T y m2))
  /\ (returned (cast_to_interface I T x m1)
      <-> I ∈ class_traits T /\ count_type I (class_traits T) = 1).
Proof.
  intros [Hs1 Hi1]%reachable_sound [Hs2 Hi2]%reachable_sound Hx Hy.
  rewrite (cast_returned_iff m1 T I x Hs1 Hi1 Hx).
  rewrite (cast_returned_iff m2 T I y Hs2 Hi2 Hy). done.
Qed.

(** C8, as amended: every slot's model is built once, in the constructor:
    the definition of a variable of class [C] completes and binds each slot
    to a [Model<C>] of the slot's interface at an address that held nothing
    before, the memory growing by the object and one model per declared
    interface; no cast and no call through a handle changes the memory
    afterwards; and no model is the target of two slots, of one object or
    of two. *)
Theorem slots_built_once_at_construction m :
  reachable m ->
  (forall C f, exists x m' o,
      declare C f m = Returns x m'
      /\ m' !! x = Some (CObject o)
      /\ length (traits o) = length (class_traits C)
      /\ (forall i Ti t, class_traits C !! i = Some Ti ->
            traits o !! i = Some t ->
            vconcept t <> nullptr /\ m !! vconcept t = None
            /\ points_to_Model m' (vconcept t) Ti C)
      /\ size m' = size m + 1 + length (class_traits C))
  /\ (forall I T x h m', cast_to_interface I T x m = Returns h m' -> m' = m)
  /\ (forall h b m', hasSideEffect h m = Returns b m' -> m' = m)
  /\ (forall x y ox oy i j tx ty,
        m !! x = Some (CObject ox) -> m !! y = Some (CObject oy) ->
        traits ox !! i = Some tx -> traits oy !! j = Some ty ->
        vconcept tx = vconcept ty -> x = y /\ i = j).
Proof.
  intros [Hs Hi]%reachable_sound. split; [|split; [|split]].
  - intros C f.
    destruct (declare_spec m C f Hs)
      as (x & m' & o & Hrun & _ & Hs' & Hx & Hcls & _ & Hnew & _ & _ & Hsz).
    exists x, m', o. do 2 (split; [done|]).
    split; [by rewrite (sound_shape m' Hs' x o Hx), Hcls|].
    split; [|done]. intros i Ti t HTi Ht.
    destruct (Hnew t) as [Hnn Hfresh]; [apply list_elem_of_lookup; eauto|].
    do 2 (split; [done|]). rewrite <- Hcls.
    apply (sound_slot m' Hs' x o i Ti t); try done. by rewrite Hcls.
  - intros I T x h m'. apply cast_pure.
  - intros h b m'. apply hasSideEffect_pure.
  - intros x y ox oy i j tx ty Hx Hy Htx Hty E.
    apply (sound_unshared m Hs x y ox oy i j tx ty); try done.
    apply (Hi x ox tx Hx). apply list_elem_of_lookup. eauto.
Qed.

(** C9: in a reachable memory no cast returns a handle with a null concept
    pointer: the pointer of a returned handle is the address of a live
    model; and for an instance of a class that declares the side-effect
    interface the cast returns and the dereference [getImpl()->] that
    [hasSideEffect()] makes finds that model, so that no operation of the
    handle dereferences a null pointer; when the [TraitManager] base lies
    at the start of the object the whole call returns. *)
Theorem cast_handle_never_null m :
  reachable m ->
  (forall T I x h m', cast_to_interface I T x m = Returns h m' ->
      getImpl h <> nullptr /\ exists c, m' !! getImpl h = Some (CModel c))
  /\ (forall T x, instance_of m x T ->
        SideEffectsInterface ∈ class_traits T -> NoDup (class_traits T) ->
        exists h c,
          cast_to_interface SideEffectsInterface T x m = Returns h m
          /\ getImpl h <> nullptr
          /\ load_model (getImpl h) m = Returns c m
          /\ (base_offset T = 0%N ->
              exists b, hasSideEffect h m = Returns b m)).
Proof.
  intros [Hs Hi]%reachable_sound. split.
  - intros T I x h m' Hcast.
    pose proof (cast_pure m T I x h m' Hcast) as ->.
    unfold cast_to_interface, throw in Hcast.
    destruct (declares T I); [|done].
    unfold bind, getTraitConcept, get_by_type in Hcast.
    destruct (Nat.eqb (count_type I (class_traits T)) 1); [|done].
    unfold bind, load_object in Hcast.
    destruct (m !! x) as [[c|o]|] eqn:Hx; try done.
    destruct (index_of I (class_traits T)) as [i|]; [|done].
    destruct (traits o !! i) as [t|] eqn:Ht; [|done].
    unfold ret in Hcast. injection Hcast as <-. simpl.
    assert (t ∈ traits o) as Hin by (apply list_elem_of_lookup; eauto).
    assert (vconcept t <> nullptr) as Hnn by by eapply Hi.
    split; [done|].
    destruct (slot_target_live m x o t Hs Hx Hin Hnn) as [Ti HTi].
    by eexists.
  - intros T x (o & Hx & Hcls) Hin Hnd.
    destruct (cast_declared m T SideEffectsInterface x o Hs Hi Hx Hcls Hin)
      as (c & Hcast & Hnn & Hc).
    { by apply count_type_NoDup. }
    exists (BaseInterface (to_void T x) c),
           {| model_iface := SideEffectsInterface; model_class := T |}.
    do 2 (split; [done|]). split.
    + unfold load_model. simpl. unfold points_to_Model in Hc. by rewrite Hc.
    + intros Hoff. exists (class_hasSideEffect T (fields o)).
      by apply hasSideEffect_bound.
Qed.

End WithFields.

(** ** The program's own operations *)

Lemma main_memory_reachable : reachable main_memory.
Proof.
  unfold main_memory, main_variables, bind.
  pose proof (@reach_start unit) as H0.
  destruct (declare AddOp tt ∅) as [a m1| | |] eqn:E1; try apply reach_start.
  pose proof (reach_declare _ _ _ _ _ H0 E1) as H1.
  destruct (declare SubOp tt m1) as [b m2| | |] eqn:E2; try apply reach_start.
  pose proof (reach_declare _ _ _ _ _ H1 E2) as H2.
  destruct (declare LoadOp tt m2) as [c m3| | |] eqn:E3; try apply reach_start.
  exact (reach_declare _ _ _ _ _ H2 E3).
Qed.

Lemma addOp_in_main : instance_of main_memory 1 AddOp.
Proof.
  exists {| dyn_class := AddOp; fields := tt;
            traits := [{| vconcept := 2 |}] |}.
  split; [vm_compute; reflexivity | reflexivity].
Qed.

Lemma loadOp_in_main : instance_of main_memory 5 LoadOp.
Proof.
  exists {| dyn_class := LoadOp; fields := tt;
            traits := [{| vconcept := 6 |}] |}.
  split; [vm_compute; reflexivity | reflexivity].
Qed.

Lemma one_trait_declared (I : Interface) : I ∈ [I] /\ NoDup [I].
Proof. split; [apply list_elem_of_here | apply NoDup_singleton]. Qed.

Lemma MemoryEffects_undeclared :
  MemoryEffectsInterface ∉ [SideEffectsInterface].
Proof.
  apply not_elem_of_cons. split; [discriminate | apply not_elem_of_nil].
Qed.

(** C4: for every [AddOp] instance [a] and every [LoadOp] instance [l],
    casting [a] to the side-effect interface and calling [hasSideEffect()]
    returns [false], and the same on [l] returns [true]. *)
Theorem AddOp_false_LoadOp_true (m : gmap N (Cell unit)) (a l : N) :
  reachable m -> instance_of m a AddOp -> instance_of m l LoadOp ->
  (do h <- cast_to_interface SideEffectsInterface AddOp a ;;
   hasSideEffect h) m = Returns false m
  /\ (do h <- cast_to_interface SideEffectsInterface LoadOp l ;;
      hasSideEffect h) m = Returns true m.
Proof.
  intros [Hs Hi]%reachable_sound (oa & Ha & Hca) (ol & Hl & Hcl).
  destruct (one_trait_declared SideEffectsInterface) as [Hin Hnd].
  destruct (cast_declared m AddOp SideEffectsInterface a oa Hs Hi Ha Hca Hin)
    as (ca & Hcasta & _ & Hma); [done|].
  destruct (cast_declared m LoadOp SideEffectsInterface l ol Hs Hi Hl Hcl Hin)
    as (cl & Hcastl & _ & Hml); [done|].
  unfold bind. rewrite Hcasta, Hcastl.
  rewrite (hasSideEffect_bound m AddOp a oa ca Hma Ha Hca eq_refl).
  rewrite (hasSideEffect_bound m LoadOp l ol cl Hml Hl Hcl eq_refl).
  done.
Qed.

Lemma AddOp_false_LoadOp_true_witness :
  (do h <- cast_to_interface SideEffectsInterface AddOp 1 ;;
   hasSideEffect h) main_memory = Returns false main_memory
  /\ (do h <- cast_to_interface SideEffectsInterface LoadOp 5 ;;
      hasSideEffect h) main_memory = Returns true main_memory.
Proof.
  apply (AddOp_false_LoadOp_true main_memory 1 5).
  - exact main_memory_reachable.
  - exact addOp_in_main.
  - exact loadOp_in_main.
Defined.

Lemma cast_declared_forwards_witness :
  exists h,
    cast_to_interface SideEffectsInterface LoadOp 5 main_memory
    = Returns h main_memory
    /\ getEntity h = to_void LoadOp 5
    /\ points_to_Model main_memory (getImpl h) SideEffectsInterface LoadOp
    /\ (SideEffectsInterface = SideEffectsInterface ->
        base_offset LoadOp = 0%N ->
        exists b, direct_hasSideEffect LoadOp 5 main_memory
                  = Returns b main_memory
                  /\ hasSideEffect h main_memory = Returns b main_memory)
    /\ (SideEffectsInterface = SideEffectsInterface ->
        base_offset LoadOp <> 0%N ->
        hasSideEffect h main_memory = Undefined).
Proof.
  apply (cast_declared_forwards main_memory LoadOp SideEffectsInterface 5).
  - exact main_memory_reachable.
  - exact loadOp_in_main.
  - exact (proj1 (one_trait_declared SideEffectsInterface)).
  - exact (proj2 (one_trait_declared SideEffectsInterface)).
Defined.

(** C1 at a failing input: a [VirtOp] whose members are [a = false] and
    [b = true], alone in memory.  The direct call [hasSideEffect()] returns
    [false].  The cast to the side-effect interface returns a handle whose
    entity is the pointer to the [TraitManager] base, 8 bytes into the
    object, and [hasSideEffect()] through the handle casts that pointer to
    a [VirtOp] and calls the member on it: undefined behaviour, not the
    result of the direct call. *)
Theorem VirtOp_handle_does_not_forward :
  exists x m h,
    declare VirtOp (false, true) ∅ = Returns x m
    /\ cast_to_interface SideEffectsInterface VirtOp x m = Returns h m
    /\ getEntity h = {| obj := x; off := 8 |}
    /\ direct_hasSideEffect VirtOp x m = Returns false m
    /\ hasSideEffect h m = Undefined.
Proof.
  destruct (declare VirtOp (false, true) ∅) as [x m| | |] eqn:E;
    try (vm_compute in E; discriminate).
  vm_compute in E. injection E as <- <-.
  eexists _, _, (BaseInterface {| obj := 1; off := 8 |} 2).
  split; [reflexivity|]. repeat split; vm_compute; reflexivity.
Qed.

Lemma cast_undeclared_throws_unchanged_witness :
  cast_to_interface MemoryEffectsInterface AddOp 1 main_memory
  = Throws (runtime_error "Op does not implement interface") main_memory
  /\ (forall e m',
        cast_to_interface MemoryEffectsInterface AddOp 1 main_memory
        = Throws e m' ->
        forall y, m' !! y = main_memory !! y).
Proof.
  apply (cast_undeclared_throws_unchanged main_memory AddOp
           MemoryEffectsInterface 1).
  exact MemoryEffects_undeclared.
Defined.

(** C3 fails as stated: casting [addOp] to an interface it does not declare
    throws an exception that names neither [AddOp] nor the interface. *)
Lemma cast_error_names_no_request :
  ~ (exists e m',
       cast_to_interface MemoryEffectsInterface AddOp 1 main_memory
       = Throws e m'
       /\ reports e AddOp MemoryEffectsInterface = true).
Proof.
  intros (e & m' & Hcast & Hrep).
  rewrite (cast_undeclared main_memory AddOp MemoryEffectsInterface 1 eq_refl)
    in Hcast.
  injection Hcast as <- _. vm_compute in Hrep. discriminate.
Qed.

Lemma cast_error_fixed_message_witness :
  exists e,
    cast_to_interface MemoryEffectsInterface AddOp 1 main_memory
    = Throws e main_memory
    /\ cast_to_interface MemoryEffectsInterface LoadOp 5 ∅ = Throws e ∅
    /\ what e = "Op does not implement interface".
Proof.
  apply (cast_error_fixed_message main_memory AddOp MemoryEffectsInterface 1
           ∅ LoadOp MemoryEffectsInterface 5).
  - exact MemoryEffects_undeclared.
  - exact MemoryEffects_undeclared.
Defined.

Lemma cast_twice_indistinguishable_witness :
  exists h1 h2,
    (do a <- cast_to_interface SideEffectsInterface AddOp 1 ;;
     do b <- cast_to_interface SideEffectsInterface AddOp 1 ;;
     ret (a, b)) main_memory = Returns (h1, h2) main_memory
    /\ getEntity h1 = to_void AddOp 1 /\ getEntity h2 = to_void AddOp 1
    /\ getImpl h1 = getImpl h2
    /\ points_to_Model main_memory (getImpl h1) SideEffectsInterface AddOp
    /\ hasSideEffect h1 main_memory = hasSideEffect h2 main_memory
    /\ (SideEffectsInterface = SideEffectsInterface ->
        base_offset AddOp = 0%N ->
        exists b, hasSideEffect h1 main_memory = Returns b main_memory
                  /\ hasSideEffect h2 main_memory = Returns b main_memory).
Proof.
  apply (cast_twice_indistinguishable main_memory AddOp SideEffectsInterface 1).
  - exact main_memory_reachable.
  - exact addOp_in_main.
  - exact (proj1 (one_trait_declared SideEffectsInterface)).
  - exact (proj2 (one_trait_declared SideEffectsInterface)).
Defined.

Lemma later_memory_reachable : reachable later_memory.
Proof.
  unfold later_memory, bind.
  destruct (destroy 3 main_memory) as [[] m1| | |] eqn:E1;
    try apply reach_start.
  pose proof (reach_destroy _ _ _ main_memory_reachable E1) as H1.
  destruct (declare AddOp tt m1) as [x m2| | |] eqn:E2;
    try apply reach_start.
  exact (reach_declare _ _ _ _ _ H1 E2).
Qed.

Lemma second_AddOp_in_later : instance_of later_memory 7 AddOp.
Proof.
  exists {| dyn_class := AddOp; fields := tt;
            traits := [{| vconcept := 8 |}] |}.
  split; [vm_compute; reflexivity | reflexivity].
Qed.

Lemma cast_success_static_witness :
  (returned (cast_to_interface SideEffectsInterface AddOp 1 main_memory)
   <-> returned (cast_to_interface SideEffectsInterface AddOp 7 later_memory))
  /\ (returned (cast_to_interface SideEffectsInterface AddOp 1 main_memory)
      <-> SideEffectsInterface ∈ class_traits AddOp
          /\ count_type SideEffectsInterface (class_traits AddOp) = 1).
Proof.
  apply (cast_success_static main_memory later_memory AddOp
           SideEffectsInterface 1 7).
  - exact main_memory_reachable.
  - exact later_memory_reachable.
  - exact addOp_in_main.
  - exact second_AddOp_in_later.
Defined.

Lemma lone_AddOp :
  exists m : gmap N (Cell unit),
    declare AddOp tt ∅ = Returns 1%N m
    /\ exists o, m !! 1%N = Some (CObject o).
Proof.
  destruct (declare AddOp tt ∅) as [x m| | |] eqn:E;
    try (vm_compute in E; discriminate).
  vm_compute in E. injection E as <- <-.
  eexists. split; [reflexivity|].
  exists {| dyn_class := AddOp; fields := tt;
            traits := [{| vconcept := 2 |}] |}.
  vm_compute. reflexivity.
Qed.

(** C8 fails as stated: the model of [addOp]'s slot is built by the
    constructor, before any use of the slot; right after the definition of
    the variable the slot's pointer is not null. *)
Lemma AddOp_slot_built_before_first_use :
  ~ (forall x m' o t,
       declare AddOp tt ∅ = Returns x m' ->
       m' !! x = Some (CObject o) -> t ∈ traits o ->
       vconcept t = nullptr).
Proof.
  intros H.
  destruct lone_AddOp as (m & Hm & o & Hx).
  pose proof (H 1%N m o {| vconcept := 2 |} Hm Hx) as H'.
  vm_compute in Hm. injection Hm as <-.
  vm_compute in Hx. injection Hx as <-.
  specialize (H' (list_elem_of_here _ _)). discriminate.
Qed.

Lemma slots_built_once_at_construction_witness :
  reachable main_memory
  /\ (forall x y ox oy i j tx ty,
        main_memory !! x = Some (CObject ox) ->
        main_memory !! y = Some (CObject oy) ->
        traits ox !! i = Some tx -> traits oy !! j = Some ty ->
        vconcept tx = vconcept ty -> x = y /\ i = j).
Proof.
  split; [exact main_memory_reachable|].
  exact (proj2 (proj2 (proj2 (slots_built_once_at_construction main_memory
                                main_memory_reachable)))).
Defined.

Lemma cast_handle_never_null_witness :
  reachable main_memory
  /\ exists h c,
       cast_to_interface SideEffectsInterface LoadOp 5 main_memory
       = Returns h main_memory
       /\ getImpl h <> nullptr
       /\ load_model (getImpl h) main_memory = Returns c main_memory
       /\ (base_offset LoadOp = 0%N ->
           exists b, hasSideEffect h main_memory = Returns b main_memory).
Proof.
  split; [exact main_memory_reachable|].
  apply (proj2 (cast_handle_never_null main_memory main_memory_reachable)
           LoadOp 5%N).
  - exact loadOp_in_main.
  - exact (proj1 (one_trait_declared SideEffectsInterface)).
  - exact (proj2 (one_trait_declared SideEffectsInterface)).
Defined.

End TraitsFacts.


(** * Properties of the two wrappers *)

Module WrapperFacts.

Import External.

(** C5: for the two external types, whose member is [render()] and not
    [draw()], [draw()] through the concept of the specialised model, and
    through a [Drawable] built from the object, writes exactly what
    [render()] called on the object writes. *)
Theorem external_draw_is_render :
  (forall (c : ExternalCircle) (out : Stdout),
      DrawableConcept_draw (Model c) out = ExternalCircle_render c out
      /\ Drawable_draw (Drawable_of c) out
         = Done (ExternalCircle_render c out))
  /\ (forall (s : ExternalSquare) (out : Stdout),
        DrawableConcept_draw (Model s) out = ExternalSquare_render s out
        /\ Drawable_draw (Drawable_of s) out
           = Done (ExternalSquare_render s out)).
Proof.
  split; intros x out; split; reflexivity.
Qed.

(** A moved-from wrapper has a null [pImpl]. *)
Lemma moved_from_is_null (d : Drawable) :
  External.pImpl (snd (Drawable_move d)) = None.
Proof. reflexivity. Qed.

Lemma moved_from_animal_is_null (a : Zoo.Animal) :
  Zoo.pImpl (snd (Zoo.Animal_move a)) = None.
Proof. reflexivity. Qed.

(** C10: [Drawable::draw()] and [Animal::makeNoise()] on a wrapper whose
    [pImpl] is null return without writing anything, and in no state of the
    wrapper do they dereference a null [pImpl]. *)
Theorem null_wrapper_call_is_noop :
  (forall out, Drawable_draw {| External.pImpl := None |} out = Done out)
  /\ (forall d out, Drawable_draw d out <> NullDereference)
  /\ (forall out, Zoo.Animal_makeNoise {| Zoo.pImpl := None |} out = Done out)
  /\ (forall a out, Zoo.Animal_makeNoise a out <> NullDereference).
Proof.
  split; [|split; [|split]].
  - reflexivity.
  - intros [[c|]] out; discriminate.
  - reflexivity.
  - intros [[c|]] out; discriminate.
Qed.

End WrapperFacts.

(** * Lifetimes: destruction, leaks and dangling handles *)

Module LifetimeFacts.

Import Traits TraitsFacts.

Section WithFields.

Context {Fields : Type}.

Local Abbreviation Mem := (gmap N (Cell Fields)).

Implicit Types (m : Mem) (T C : OpClass Fields) (x y p : N).

(** ** What the slots of a live object point to *)

Lemma targets_lookup (o : Object Fields) p :
  p ∈ targets o <-> exists i t, traits o !! i = Some t /\ vconcept t = p.
Proof.
  unfold targets. rewrite list_elem_of_fmap. split.
  - intros (t & -> & [i Hi]%list_elem_of_lookup). eauto.
  - intros (i & t & Hi & <-). exists t. split; [done|].
    apply list_elem_of_lookup. eauto.
Qed.

Lemma targets_live m x o p :
  sound m -> initialised m -> m !! x = Some (CObject o) -> p ∈ targets o ->
  p <> nullptr /\ exists c, m !! p = Some (CModel c).
Proof.
  intros Hs Hi Hx (i & t & Ht & <-)%targets_lookup.
  assert (t ∈ traits o) as Hin by (apply list_elem_of_lookup; eauto).
  assert (vconcept t <> nullptr) as Hnn by by eapply Hi.
  split; [done|].
  destruct (slot_target_live m x o t Hs Hx Hin Hnn) as [Ti HTi].
  by eexists.
Qed.

Lemma targets_NoDup m x o :
  sound m -> initialised m -> m !! x = Some (CObject o) ->
  NoDup (targets o).
Proof.
  intros Hs Hi Hx. apply NoDup_alt. intros i j p Hi' Hj'.
  unfold targets in Hi', Hj'. rewrite list_lookup_fmap in Hi', Hj'.
  destruct (traits o !! i) as [ti|] eqn:Hti; [|done].
  destruct (traits o !! j) as [tj|] eqn:Htj; [|done].
  simpl in *. injection Hi' as Ei. injection Hj' as Ej.
  assert (vconcept ti <> nullptr) as Hnn.
  { apply (Hi x o ti Hx). apply list_elem_of_lookup. eauto. }
  assert (vconcept ti = vconcept tj) as E by congruence.
  by destruct (sound_unshared m Hs x x o o i j ti tj Hx Hx Hti Htj Hnn E).
Qed.

(** The targets of two live objects are disjoint. *)
Lemma targets_disjoint m x y ox oy p :
  sound m -> initialised m ->
  m !! x = Some (CObject ox) -> m !! y = Some (CObject oy) ->
  p ∈ targets ox -> p ∈ targets oy -> x = y.
Proof.
  intros Hs Hi Hx Hy (i & tx & Htx & <-)%targets_lookup
         (j & ty & Hty & E)%targets_lookup.
  assert (vconcept tx <> nullptr) as Hnn.
  { apply (Hi x ox tx Hx). apply list_elem_of_lookup. eauto. }
  symmetry in E.
  by destruct (sound_unshared m Hs x y ox oy i j tx ty Hx Hy Htx Hty Hnn E).
Qed.

(** ** The destructor completes and frees exactly its own models *)

Lemma destroy_traits_all ts :
  forall m,
  NoDup (vconcept <$> ts) ->
  (forall t, t ∈ ts ->
     vconcept t <> nullptr /\ exists c, m !! vconcept t = Some (CModel c)) ->
  exists m',
    destroy_traits ts m = Returns tt m'
    /\ (forall y, m' !! y
                  = if decide (y ∈ vconcept <$> ts) then None else m !! y)
    /\ size m' + length ts = size m.
Proof.
  induction ts as [|t ts IH]; intros m Hnd Hlive.
  - exists m. split; [done|]. split; [|simpl; lia].
    intros y. case_decide as Hin; [by apply elem_of_nil in Hin | done].
  - rewrite fmap_cons in Hnd. apply NoDup_cons in Hnd as [Hnin Hnd].
    destruct (Hlive t) as [Hnn [c Hc]]; [apply list_elem_of_here|].
    destruct (IH (delete (vconcept t) m) Hnd) as (m' & Hrun & Hlook & Hsz).
    { intros t' Ht'.
      destruct (Hlive t') as [Hnn' [c' Hc']]; [by apply list_elem_of_further|].
      split; [done|]. exists c'. rewrite lookup_delete_ne; [done|].
      intros E. apply Hnin. rewrite E. apply list_elem_of_fmap. eauto. }
    exists m'. split; [|split].
    + simpl. unfold bind, Trait_dtor, delete_Model.
      rewrite decide_False by done. by rewrite Hc.
    + intros y. rewrite Hlook, fmap_cons.
      destruct (decide (y = vconcept t)) as [->|Hne].
      * rewrite lookup_delete_eq.
        repeat case_decide; try done.
        exfalso. eauto using list_elem_of_here.
      * rewrite lookup_delete_ne by done.
        repeat case_decide; try done.
        -- exfalso. eauto using list_elem_of_further.
        -- exfalso. by apply elem_of_cons in H0 as [?|?].
    + rewrite (map_size_delete_Some (vconcept t) m) in Hsz by by eexists.
      assert (size m <> 0) as Hpos.
      { apply (map_size_ne_0_lookup_2 m (vconcept t)). by eexists. }
      simpl. lia.
Qed.

(** In a sound, initialised memory the lifetime of any live object can end:
    its models and its storage go, and nothing else. *)
Lemma destroy_completes m x o :
  sound m -> initialised m -> m !! x = Some (CObject o) ->
  exists m',
    destroy x m = Returns tt m'
    /\ (forall y, m' !! y
                  = if decide (y = x \/ y ∈ targets o) then None else m !! y)
    /\ size m' + 1 + length (traits o) = size m.
Proof.
  intros Hs Hi Hx.
  destruct (destroy_traits_all (traits o) m) as (m1 & Hrun & Hlook & Hsz).
  { by eapply targets_NoDup. }
  { intros t Ht. apply (targets_live m x o); try done.
    apply list_elem_of_fmap. eauto. }
  assert (x ∉ targets o) as Hxt.
  { intros Hin. destruct (targets_live m x o x Hs Hi Hx Hin) as [_ [c Hc]].
    congruence. }
  exists (delete x m1). split; [|split].
  - unfold destroy, bind, load_object. rewrite Hx. by rewrite Hrun.
  - intros y. destruct (decide (y = x)) as [->|Hne].
    + rewrite lookup_delete_eq. case_decide as Hd; [done|].
      exfalso. apply Hd. by left.
    + rewrite lookup_delete_ne by done. rewrite Hlook. fold (targets o).
      repeat case_decide; try done.
      * exfalso. eauto.
      * exfalso. by destruct H0.
  - assert (is_Some (m1 !! x)) as Hx1.
    { rewrite Hlook. fold (targets o). case_decide; [done | by rewrite Hx]. }
    rewrite map_size_delete_Some by done.
    pose proof (map_size_ne_0_lookup_2 m1 x Hx1). lia.
Qed.

(** ** Everything the constructor allocates ends up in a slot *)

Lemma initTraits_cells Derived this Is :
  NoDup Is ->
  forall m o m' o',
  sound m ->
  m !! this = Some (CObject o) ->
  dyn_class o = Derived ->
  Forall (fun i => i < length (class_traits Derived)) Is ->
  initTraits Derived this Is m = Returns tt m' ->
  m' !! this = Some (CObject o') ->
  forall y, m !! y = None -> is_Some (m' !! y) ->
    exists j t, j ∈ Is /\ traits o' !! j = Some t /\ vconcept t = y.
Proof.
  induction 1 as [|i Is' Hnin Hnd IH];
    intros m o m' o' Hs Hthis Hcls Hall Hrun Hthis' y Hy Hy'.
  - simpl in Hrun. unfold ret in Hrun. injection Hrun as <-.
    rewrite Hy in Hy'. by destruct Hy'.
  - subst Derived. apply Forall_cons in Hall as [Hi Hall].
    pose proof Hi as Hi'.
    apply lookup_lt_is_Some in Hi as [Ti HTi].
    rewrite <- (sound_shape m Hs this o Hthis) in Hi'.
    apply lookup_lt_is_Some in Hi' as [t Ht].
    destruct (init_slot m this o i Ti t Hs Hthis HTi Ht)
      as (Hstep & Hs1 & Hn & Hp & _).
    set (p := fresh_addr m) in *.
    set (o1 := {| dyn_class := dyn_class o; fields := fields o;
                  traits := <[i := {| vconcept := p |}]> (traits o) |}) in *.
    set (m1 := <[this := CObject o1]> _) in *.
    assert (initTraits (dyn_class o) this Is' m1 = Returns tt m') as Hrest.
    { simpl in Hrun. unfold bind at 1, load_object in Hrun.
      rewrite Hthis, HTi, Ht in Hrun.
      unfold bind at 1 2 in Hrun. unfold bind in Hstep.
      destruct (initialize Ti (dyn_class o) t m) as [t' mt| | |]; try done.
      by rewrite Hstep in Hrun. }
    assert (m1 !! this = Some (CObject o1)) as Hthis1
      by apply lookup_insert_eq.
    destruct (initTraits_spec (dyn_class o) this Is' m1 o1 Hs1 Hthis1 eq_refl
                Hall)
      as (m'' & o'' & Hrun'' & _ & Hthis'' & _ & _ & _ & Hkeep & _).
    rewrite Hrest in Hrun''. injection Hrun'' as <-.
    rewrite Hthis' in Hthis''. injection Hthis'' as <-.
    destruct (m1 !! y) as [c|] eqn:Hy1.
    + assert (y <> this) as Hne by congruence.
      unfold m1 in Hy1. rewrite lookup_insert_ne in Hy1 by done.
      destruct (decide (p = y)) as [<-|Hpy].
      * exists i, {| vconcept := p |}. split; [apply list_elem_of_here|].
        split; [|done]. rewrite (Hkeep i Hnin). simpl.
        apply list_lookup_insert_eq. by eapply lookup_lt_Some.
      * rewrite lookup_insert_ne in Hy1 by done. congruence.
    + destruct (IH m1 o1 m' o' Hs1 Hthis1 eq_refl Hall Hrest Hthis' y Hy1 Hy')
        as (j & tj & Hj & Htj & E).
      exists j, tj. split; [by apply list_elem_of_further | done].
Qed.

(** The cells a definition adds are the object and the targets of its
    slots. *)
Lemma declare_cells m C f x m' o :
  sound m -> declare C f m = Returns x m' ->
  m' !! x = Some (CObject o) ->
  forall y, m !! y = None -> is_Some (m' !! y) -> y = x \/ y ∈ targets o.
Proof.
  intros Hs Hrun Hx y Hy Hy'.
  pose proof (fresh_addr_not_null m) as Hn.
  pose proof (fresh_addr_unused m) as Hfresh.
  unfold declare in Hrun.
  set (this := fresh_addr m) in *.
  set (blank := {| dyn_class := C; fields := f;
                   traits := replicate (length (class_traits C))
                               {| vconcept := nullptr |} |}) in *.
  set (m0 := <[this := CObject blank]> m) in *.
  unfold bind, TraitManager in Hrun.
  destruct (initTraits C this (seq 0 (length (class_traits C))) m0)
    as [[] m1| | |] eqn:Hinit; try done.
  unfold ret in Hrun. injection Hrun as <- <-.
  destruct (decide (y = this)) as [->|Hne]; [by left|]. right.
  destruct (initTraits_cells C this (seq 0 (length (class_traits C)))
              (NoDup_seq _ _) m0 blank m1 o) with (y := y)
    as (j & t & _ & Ht & E); try done.
  - by apply sound_blank.
  - apply lookup_insert_eq.
  - apply Forall_forall. intros i Hi. apply elem_of_seq in Hi. lia.
  - unfold m0. by rewrite lookup_insert_ne.
  - apply targets_lookup. eauto.
Qed.

(** ** What a cast and a call read *)

Lemma destroy_returns_live m x m' :
  destroy x m = Returns tt m' -> exists o, m !! x = Some (CObject o).
Proof.
  unfold destroy, bind, load_object.
  destruct (m !! x) as [[c|o]|]; try done. by exists o.
Qed.

(** A cast that returns took the handle's concept pointer from a slot of
    the live object it was given. *)
Lemma cast_returns_slot m T I x h m' :
  cast_to_interface I T x m = Returns h m' ->
  declares T I = true
  /\ count_type I (class_traits T) = 1
  /\ exists o, m !! x = Some (CObject o)
               /\ getEntity h = to_void T x /\ getImpl h ∈ targets o.
Proof.
  unfold cast_to_interface, throw. destruct (declares T I); [|done].
  unfold bind, getTraitConcept, get_by_type.
  destruct (Nat.eqb (count_type I (class_traits T)) 1) eqn:Hcount; [|done].
  apply Nat.eqb_eq in Hcount.
  unfold bind, load_object.
  destruct (m !! x) as [[c|o]|] eqn:Hx; try done.
  destruct (index_of I (class_traits T)) as [i|]; [|done].
  destruct (traits o !! i) as [t|] eqn:Ht; [|done].
  unfold ret. intros [= <- _]. do 2 (split; [done|]).
  exists o. do 2 (split; [done|]). apply targets_lookup. eauto.
Qed.

(** The cast reads the object it is given and nothing else. *)
Lemma cast_same_object m m' T I x h :
  m' !! x = m !! x ->
  cast_to_interface I T x m = Returns h m ->
  cast_to_interface I T x m' = Returns h m'.
Proof.
  intros E. unfold cast_to_interface, throw. destruct (declares T I); [|done].
  unfold bind, getTraitConcept, get_by_type.
  destruct (Nat.eqb (count_type I (class_traits T)) 1); [|done].
  unfold bind, load_object. rewrite E.
  destruct (m !! x) as [[c|o]|]; try done.
  destruct (index_of I (class_traits T)) as [i|]; [|done].
  destruct (traits o !! i) as [t|]; [|done].
  unfold ret. by intros [= <-].
Qed.

(** A call through a handle reads the model and the entity and nothing
    else. *)
Lemma hasSideEffect_same_cells m m' h b :
  m' !! getImpl h = m !! getImpl h ->
  m' !! obj (getEntity h) = m !! obj (getEntity h) ->
  hasSideEffect h m = Returns b m ->
  hasSideEffect h m' = Returns b m'.
Proof.
  intros Ei Ee.
  unfold hasSideEffect, Concept_hasSideEffect, bind, load_model.
  rewrite Ei. destruct (m !! getImpl h) as [[c|o]|]; try done.
  destruct (String.eqb _ _); [|done].
  unfold Model_hasSideEffect.
  destruct (N.eqb _ _); [|done].
  unfold bind, load_object.
  rewrite Ee. destruct (m !! obj (getEntity h)) as [[c'|o]|]; try done.
  destruct (String.eqb _ _); [|done].
  unfold ret. by intros [= <-].
Qed.

(** ** Destruction *)

(** X1: in a reachable memory the lifetime of any live object can end
    without a double [delete] or any other undefined behaviour; the object
    and one model per declared interface are released, and every other
    object and the models of its slots stay as they were. *)
Theorem destroy_frees_exactly_own m x T :
  reachable m -> instance_of m x T ->
  exists m',
    destroy x m = Returns tt m'
    /\ reachable m'
    /\ m' !! x = None
    /\ size m' + 1 + length (class_traits T) = size m
    /\ (forall y oy, y <> x -> m !! y = Some (CObject oy) ->
          m' !! y = Some (CObject oy)
          /\ forall p, p ∈ targets oy -> m' !! p = m !! p).
Proof.
  intros Hr (o & Hx & Hcls). pose proof Hr as [Hs Hi]%reachable_sound.
  destruct (destroy_completes m x o Hs Hi Hx) as (m' & Hrun & Hlook & Hsz).
  assert (forall y c, m !! y = Some (CObject c) -> y ∉ targets o) as Hobj.
  { intros y c Hy Hin.
    destruct (targets_live m x o y Hs Hi Hx Hin) as [_ [c' Hc']]. congruence. }
  exists m'. split; [done|]. split; [by eapply reach_destroy|].
  split; [|split].
  - rewrite Hlook. case_decide as Hd; [done|]. exfalso. apply Hd. by left.
  - by rewrite <- Hcls, <- (sound_shape m Hs x o Hx).
  - intros y oy Hne Hy. split.
    + rewrite Hlook. case_decide as Hd; [|done].
      destruct Hd as [?|Hin]; [done|]. by apply Hobj in Hy.
    + intros p Hp. rewrite Hlook. case_decide as Hd; [|done].
      destruct Hd as [->|Hin].
      * destruct (targets_live m y oy x Hs Hi Hy Hp) as [_ [c Hc]]. congruence.
      * exfalso. apply Hne. symmetry.
        by apply (targets_disjoint m x y o oy p).
Qed.

(** X2: defining a variable and ending its lifetime gives back the memory
    there was before: nothing the constructor allocated is left behind. *)
Theorem declare_then_destroy_restores m C f :
  reachable m ->
  (do x <- declare C f ;; destroy x) m = Returns tt m.
Proof.
  intros [Hs Hi]%reachable_sound.
  destruct (declare_spec m C f Hs)
    as (x & m' & o & Hrun & Hfresh & Hs' & Hx & _ & _ & Hnew & Hframe & _).
  pose proof (declare_initialised m C f x m' Hs Hi Hrun) as Hi'.
  destruct (destroy_completes m' x o Hs' Hi' Hx) as (m'' & Hrun' & Hlook & _).
  unfold bind. rewrite Hrun, Hrun'. f_equal.
  apply map_eq. intros y. rewrite Hlook.
  case_decide as Hd.
  - destruct Hd as [->|Hin]; [done|].
    apply list_elem_of_fmap in Hin as (t & -> & Ht).
    symmetry. by apply Hnew.
  - destruct (m !! y) as [c|] eqn:Hy; [by apply Hframe|].
    destruct (m' !! y) as [c|] eqn:Hy'; [|done].
    exfalso. apply Hd.
    by apply (declare_cells m C f x m' o Hs Hrun Hx y Hy).
Qed.

(** X3: a reachable memory holds no leaked and no shared model: every
    model is the target of a slot of exactly one live object, and it is a
    [Model] of that object's class. *)
Theorem reachable_models_owned m :
  reachable m ->
  forall p c, m !! p = Some (CModel c) ->
  exists x o,
    m !! x = Some (CObject o) /\ p ∈ targets o
    /\ model_class c = dyn_class o
    /\ forall y oy, m !! y = Some (CObject oy) -> p ∈ targets oy -> y = x.
Proof.
  intros Hr.
  assert (leak_free m) as Hleak.
  { induction Hr as [|m C f x m' Hr IH Hrun|m x m' Hr IH Hrun].
    - intros p c. by rewrite lookup_empty.
    - pose proof Hr as [Hs Hi]%reachable_sound.
      destruct (declare_spec m C f Hs)
        as (x' & m'' & o & Hrun' & _ & _ & Hx & _ & _ & _ & Hframe & _).
      rewrite Hrun in Hrun'. injection Hrun' as <- <-.
      intros p c Hp. destruct (m !! p) as [c0|] eqn:Hp0.
      + pose proof (Hframe p c0 Hp0) as Hp'.
        rewrite Hp in Hp'. injection Hp' as <-.
        destruct (IH p c Hp0) as (y & oy & Hy & Hin).
        exists y, oy. split; [by apply Hframe | done].
      + destruct (declare_cells m C f x m' o Hs Hrun Hx p Hp0) as [->|Hin];
          [by eexists | congruence |].
        by exists x, o.
    - pose proof Hr as [Hs Hi]%reachable_sound.
      destruct (destroy_returns_live m x m' Hrun) as [o Hx].
      destruct (destroy_completes m x o Hs Hi Hx) as (m'' & Hrun' & Hlook & _).
      rewrite Hrun in Hrun'. injection Hrun' as <-.
      intros p c Hp. rewrite Hlook in Hp.
      case_decide as Hd; [done|].
      destruct (IH p c Hp) as (y & oy & Hy & Hin).
      exists y, oy. split; [|done]. rewrite Hlook.
      case_decide as Hd'; [|done]. exfalso.
      destruct Hd' as [->|Hin'].
      + apply Hd. right. congruence.
      + destruct (targets_live m x o y Hs Hi Hx Hin') as [_ [c' Hc']].
        congruence. }
  pose proof Hr as [Hs Hi]%reachable_sound.
  intros p c Hp. destruct (Hleak p c Hp) as (x & o & Hx & Hin).
  exists x, o. do 2 (split; [done|]). split.
  - apply targets_lookup in Hin as (i & t & Ht & <-).
    assert (i < length (class_traits (dyn_class o))) as Hlt.
    { rewrite <- (sound_shape m Hs x o Hx). by eapply lookup_lt_Some. }
    apply lookup_lt_is_Some in Hlt as [Ti HTi].
    assert (vconcept t <> nullptr) as Hnn.
    { apply (Hi x o t Hx). apply list_elem_of_lookup. eauto. }
    pose proof (sound_slot m Hs x o i Ti t Hx HTi Ht Hnn) as Hpt.
    unfold points_to_Model in Hpt. rewrite Hp in Hpt. by injection Hpt as ->.
  - intros y oy Hy Hin'. by apply (targets_disjoint m y x oy o p).
Qed.

(** X4: a handle does not keep its object alive: once the object's
    lifetime has ended, a call through a handle cast from it, and a new
    cast of the old pointer, are undefined behaviour. *)
Theorem handle_dangles_after_destroy m T I x h :
  reachable m -> cast_to_interface I T x m = Returns h m ->
  exists m',
    destroy x m = Returns tt m'
    /\ hasSideEffect h m' = Undefined
    /\ cast_to_interface I T x m' = Undefined.
Proof.
  intros [Hs Hi]%reachable_sound Hcast.
  destruct (cast_returns_slot m T I x h m Hcast)
    as (Hd & Hcount & o & Hx & He & Hin).
  destruct (destroy_completes m x o Hs Hi Hx) as (m' & Hrun & Hlook & _).
  exists m'. split; [done|]. split.
  - unfold hasSideEffect, Concept_hasSideEffect, bind, load_model.
    rewrite Hlook. case_decide as Hdec; [done|]. exfalso. apply Hdec. by right.
  - unfold cast_to_interface. rewrite Hd.
    unfold bind, getTraitConcept. rewrite Hcount. simpl.
    unfold bind, load_object.
    rewrite Hlook. case_decide as Hdec; [done|]. exfalso. apply Hdec. by left.
Qed.

(** X5: a handle stays good while other objects come and go: after the
    definition of any new variable, and after the end of the lifetime of
    any other object, a new cast of the same object returns the same handle
    and [hasSideEffect()] through it returns what it returned before. *)
Theorem handle_survives_other_lifetimes m T I y h b :
  reachable m ->
  cast_to_interface I T y m = Returns h m ->
  hasSideEffect h m = Returns b m ->
  (forall C f x m', declare C f m = Returns x m' ->
      cast_to_interface I T y m' = Returns h m'
      /\ hasSideEffect h m' = Returns b m')
  /\ (forall x m', x <> y -> destroy x m = Returns tt m' ->
        cast_to_interface I T y m' = Returns h m'
        /\ hasSideEffect h m' = Returns b m').
Proof.
  intros [Hs Hi]%reachable_sound Hcast Hcall.
  destruct (cast_returns_slot m T I y h m Hcast)
    as (_ & _ & oy & Hy & He & Hin).
  destruct (targets_live m y oy (getImpl h) Hs Hi Hy Hin) as [_ [c Hc]].
  split.
  - intros C f x m' Hrun.
    destruct (declare_spec m C f Hs)
      as (x' & m'' & o & Hrun' & _ & _ & _ & _ & _ & _ & Hframe & _).
    rewrite Hrun in Hrun'. injection Hrun' as <- <-.
    split.
    + apply (cast_same_object m); [|done]. rewrite Hy. by apply Hframe.
    + apply (hasSideEffect_same_cells m); [| |done].
      * rewrite Hc. by apply Hframe.
      * rewrite He. simpl. rewrite Hy. by apply Hframe.
  - intros x m' Hne Hrun.
    destruct (destroy_returns_live m x m' Hrun) as [o Hx].
    destruct (destroy_completes m x o Hs Hi Hx) as (m'' & Hrun' & Hlook & _).
    rewrite Hrun in Hrun'. injection Hrun' as <-.
    assert (m' !! y = m !! y) as Ey.
    { rewrite Hlook. case_decide as Hd; [|done].
      destruct Hd as [?|Hd]; [done|].
      destruct (targets_live m x o y Hs Hi Hx Hd) as [_ [c' Hc']].
      congruence. }
    assert (m' !! getImpl h = m !! getImpl h) as Ei.
    { rewrite Hlook. case_decide as Hd; [|done].
      destruct Hd as [E|Hd]; [congruence|].
      exfalso. apply Hne. by apply (targets_disjoint m x y o oy (getImpl h)). }
    split.
    + by apply (cast_same_object m).
    + apply (hasSideEffect_same_cells m); [done| |done]. by rewrite He.
Qed.

(** ** Running [initTraits] a second time *)

(** X6: [initTraits] is public and [initialize] overwrites [vconcept]
    without a [delete]: run again on a constructed object it completes and
    allocates one more model per slot, and every model the slots pointed to
    before stays allocated with no slot of any object pointing to it. *)
Theorem initTraits_again_leaks m C x o :
  reachable m -> m !! x = Some (CObject o) -> dyn_class o = C ->
  exists m' o',
    initTraits C x (seq 0 (length (class_traits C))) m = Returns tt m'
    /\ m' !! x = Some (CObject o')
    /\ size m' = size m + length (class_traits C)
    /\ forall p, p ∈ targets o ->
         (exists c, m' !! p = Some (CModel c)) /\ ~ referenced m' p.
Proof.
  intros [Hs Hi]%reachable_sound Hx Hcls.
  destruct (initTraits_spec C x (seq 0 (length (class_traits C))) m o
              Hs Hx Hcls)
    as (m' & o' & Hrun & Hs' & Hx' & Hcls' & _ & Hinit & _ & Hframe & Hback
        & Hsz).
  { apply Forall_forall. intros i Hin. apply elem_of_seq in Hin. lia. }
  exists m', o'. do 2 (split; [done|]).
  split; [by rewrite Hsz, length_seq|].
  intros p Hp.
  destruct (targets_live m x o p Hs Hi Hx Hp) as [Hnn [c Hc]].
  assert (p <> x) as Hpx by congruence.
  split; [exists c; by apply Hframe|].
  intros (y & oy & Hy & Hin).
  destruct (decide (y = x)) as [->|Hne].
  - rewrite Hx' in Hy. injection Hy as <-.
    apply targets_lookup in Hin as (j & t & Ht & E).
    assert (j ∈ seq 0 (length (class_traits C))) as Hj.
    { apply elem_of_seq. apply lookup_lt_Some in Ht.
      rewrite (sound_shape m' Hs' x o' Hx'), Hcls' in Ht. lia. }
    destruct (Hinit j t Hj Ht) as [_ Hnew]. congruence.
  - apply Hback in Hy; [|done]. apply Hne.
    by apply (targets_disjoint m y x oy o p).
Qed.

(** ** Lookup by type against initialisation by index *)

Lemma index_of_NoDup (pack : list Interface) i Ti :
  NoDup pack -> pack !! i = Some Ti -> index_of Ti pack = Some i.
Proof.
  intros Hnd. revert i. induction Hnd as [|J pack Hnin Hnd IH]; intros i Hi.
  - by rewrite lookup_nil in Hi.
  - destruct i as [|i]; simpl in *.
    + injection Hi as ->. by rewrite String.eqb_refl.
    + assert (Ti <> J) as Hne.
      { intros ->. apply Hnin. apply list_elem_of_lookup. eauto. }
      apply String.eqb_neq in Hne. rewrite Hne. by rewrite (IH i Hi).
Qed.

(** X7: [getTraitConcept], which finds the slot by its type, returns for
    the interface at any position of the pack the pointer that [initTraits]
    stored at that position, a live [Model] of the object's class for that
    interface; for an interface that is not in the pack it is ill-formed
    (rejected when compiled). *)
Theorem getTraitConcept_finds_slot m T x o :
  reachable m -> m !! x = Some (CObject o) -> dyn_class o = T ->
  NoDup (class_traits T) ->
  (forall i Ti, class_traits T !! i = Some Ti ->
      exists t, traits o !! i = Some t
                /\ getTraitConcept T Ti x m = Returns (vconcept t) m
                /\ points_to_Model m (vconcept t) Ti T)
  /\ (forall I, I ∉ class_traits T -> getTraitConcept T I x m = IllFormed).
Proof.
  intros [Hs Hi]%reachable_sound Hx <- Hnd. split.
  - intros i Ti HTi.
    assert (is_Some (traits o !! i)) as [t Ht].
    { apply lookup_lt_is_Some. rewrite (sound_shape m Hs x o Hx).
      by eapply lookup_lt_Some. }
    exists t. split; [done|]. split.
    + unfold getTraitConcept, get_by_type.
      rewrite (count_type_NoDup Ti _ Hnd)
        by (apply list_elem_of_lookup; eauto).
      simpl. unfold bind, load_object. rewrite Hx.
      by rewrite (index_of_NoDup _ i Ti Hnd HTi), Ht.
    + apply (sound_slot m Hs x o i Ti t Hx HTi Ht).
      apply (Hi x o t Hx). apply list_elem_of_lookup. eauto.
  - intros I Hnin. unfold getTraitConcept.
    by rewrite (count_type_absent I _ Hnin).
Qed.

(** X8: a class whose pack lists an interface more than once can still be
    constructed, each slot getting a model of its own, but a cast of its
    instance to that interface is ill-formed: [std::get] by type needs the
    type to occur exactly once. *)
Theorem repeated_trait_cast_ill_formed m C f I :
  reachable m -> I ∈ class_traits C -> count_type I (class_traits C) <> 1 ->
  exists x m' o,
    declare C f m = Returns x m'
    /\ m' !! x = Some (CObject o)
    /\ length (traits o) = length (class_traits C)
    /\ NoDup (targets o)
    /\ cast_to_interface I C x m' = IllFormed.
Proof.
  intros [Hs Hi]%reachable_sound Hin Hcount.
  destruct (declare_spec m C f Hs)
    as (x & m' & o & Hrun & _ & Hs' & Hx & Hcls & _).
  pose proof (declare_initialised m C f x m' Hs Hi Hrun) as Hi'.
  exists x, m', o. do 2 (split; [done|]).
  split; [by rewrite (sound_shape m' Hs' x o Hx), Hcls|].
  split; [by eapply targets_NoDup|].
  apply (cast_repeated m' C I x o Hx); [|done]. by apply declares_elem_of.
Qed.

(** X9: the cast does not test its pointer: for an interface that the pack
    holds exactly once a null pointer is dereferenced, which is undefined
    behaviour; for an undeclared one the cast throws before it touches the
    pointer. *)
Theorem cast_null_pointer m T I :
  reachable m ->
  (I ∈ class_traits T -> count_type I (class_traits T) = 1 ->
   cast_to_interface I T nullptr m = Undefined)
  /\ (I ∉ class_traits T ->
      cast_to_interface I T nullptr m
      = Throws (runtime_error "Op does not implement interface") m).
Proof.
  intros [Hs _]%reachable_sound. split.
  - intros Hin%declares_elem_of Hcount. unfold cast_to_interface.
    rewrite Hin. unfold bind, getTraitConcept. rewrite Hcount. simpl.
    unfold bind, load_object. by rewrite (sound_null m Hs).
  - intros Hnin. apply cast_undeclared.
    destruct (declares T I) eqn:Hd; [|done].
    by apply declares_elem_of in Hd.
Qed.

End WithFields.

(** ** The program's objects *)

(** X10: for every [SubOp] instance, casting it to the side-effect
    interface and calling [hasSideEffect()] returns [false]. *)
Theorem SubOp_false (m : gmap N (Cell unit)) (s : N) :
  reachable m -> instance_of m s SubOp ->
  (do h <- cast_to_interface SideEffectsInterface SubOp s ;;
   hasSideEffect h) m = Returns false m.
Proof.
  intros [Hs Hi]%reachable_sound (o & Hx & Hcls).
  destruct (one_trait_declared SideEffectsInterface) as [Hin Hnd].
  destruct (cast_declared m SubOp SideEffectsInterface s o Hs Hi Hx Hcls Hin)
    as (c & Hcast & _ & Hc); [done|].
  unfold bind. rewrite Hcast.
  by rewrite (hasSideEffect_bound m SubOp s o c Hc Hx Hcls eq_refl).
Qed.

Lemma subOp_in_main : instance_of main_memory 3 SubOp.
Proof.
  exists {| dyn_class := SubOp; fields := tt;
            traits := [{| vconcept := 4 |}] |}.
  split; [vm_compute; reflexivity | reflexivity].
Qed.

Lemma addOp_cell :
  main_memory !! 1%N
  = Some (CObject {| dyn_class := AddOp; fields := tt;
                     traits := [{| vconcept := 2 |}] |}).
Proof. vm_compute. reflexivity. Qed.

Lemma addOp_handle :
  cast_to_interface SideEffectsInterface AddOp 1 main_memory
  = Returns (BaseInterface (to_void AddOp 1) 2) main_memory
  /\ hasSideEffect (BaseInterface (to_void AddOp 1) 2) main_memory
     = Returns false main_memory.
Proof. split; vm_compute; reflexivity. Qed.

Lemma SubOp_false_witness :
  (do h <- cast_to_interface SideEffectsInterface SubOp 3 ;;
   hasSideEffect h) main_memory = Returns false main_memory.
Proof.
  apply (SubOp_false main_memory 3).
  - exact main_memory_reachable.
  - exact subOp_in_main.
Defined.

Lemma destroy_frees_exactly_own_witness :
  exists m',
    destroy 1 main_memory = Returns tt m'
    /\ reachable m'
    /\ m' !! 1%N = None
    /\ size m' + 1 + length (class_traits AddOp) = size main_memory
    /\ (forall y oy, y <> 1%N -> main_memory !! y = Some (CObject oy) ->
          m' !! y = Some (CObject oy)
          /\ forall p, p ∈ targets oy -> m' !! p = main_memory !! p).
Proof.
  apply (destroy_frees_exactly_own main_memory 1 AddOp).
  - exact main_memory_reachable.
  - exact addOp_in_main.
Defined.

Lemma declare_then_destroy_restores_witness :
  (do x <- declare LoadOp tt ;; destroy x) main_memory
  = Returns tt main_memory.
Proof.
  apply (declare_then_destroy_restores main_memory LoadOp tt).
  exact main_memory_reachable.
Defined.

Lemma reachable_models_owned_witness :
  reachable main_memory
  /\ forall p c, main_memory !! p = Some (CModel c) ->
     exists x o,
       main_memory !! x = Some (CObject o) /\ p ∈ targets o
       /\ model_class c = dyn_class o
       /\ forall y oy, main_memory !! y = Some (CObject oy) ->
            p ∈ targets oy -> y = x.
Proof.
  split; [exact main_memory_reachable|].
  apply (reachable_models_owned main_memory). exact main_memory_reachable.
Defined.

Lemma handle_dangles_after_destroy_witness :
  exists m',
    destroy 1 main_memory = Returns tt m'
    /\ hasSideEffect (BaseInterface (to_void AddOp 1) 2) m' = Undefined
    /\ cast_to_interface SideEffectsInterface AddOp 1 m' = Undefined.
Proof.
  apply (handle_dangles_after_destroy main_memory AddOp SideEffectsInterface
           1 (BaseInterface (to_void AddOp 1) 2)).
  - exact main_memory_reachable.
  - exact (proj1 addOp_handle).
Defined.

Lemma handle_survives_other_lifetimes_witness :
  (forall C f x m', declare C f main_memory = Returns x m' ->
      cast_to_interface SideEffectsInterface AddOp 1 m'
      = Returns (BaseInterface (to_void AddOp 1) 2) m'
      /\ hasSideEffect (BaseInterface (to_void AddOp 1) 2) m' = Returns false m')
  /\ (forall x m', x <> 1%N -> destroy x main_memory = Returns tt m' ->
        cast_to_interface SideEffectsInterface AddOp 1 m'
        = Returns (BaseInterface (to_void AddOp 1) 2) m'
        /\ hasSideEffect (BaseInterface (to_void AddOp 1) 2) m' = Returns false m').
Proof.
  apply (handle_survives_other_lifetimes main_memory AddOp
           SideEffectsInterface 1 (BaseInterface (to_void AddOp 1) 2) false).
  - exact main_memory_reachable.
  - exact (proj1 addOp_handle).
  - exact (proj2 addOp_handle).
Defined.

Lemma initTraits_again_leaks_witness :
  exists m' o',
    initTraits AddOp 1 (seq 0 (length (class_traits AddOp))) main_memory
    = Returns tt m'
    /\ m' !! 1%N = Some (CObject o')
    /\ size m' = size main_memory + length (class_traits AddOp)
    /\ forall p,
         p ∈ targets {| dyn_class := AddOp; fields := tt;
                        traits := [{| vconcept := 2 |}] |} ->
         (exists c, m' !! p = Some (CModel c)) /\ ~ referenced m' p.
Proof.
  apply (initTraits_again_leaks main_memory AddOp 1).
  - exact main_memory_reachable.
  - exact addOp_cell.
  - reflexivity.
Defined.

Lemma getTraitConcept_finds_slot_witness :
  (forall i Ti, class_traits AddOp !! i = Some Ti ->
      exists t, [{| vconcept := 2 |}] !! i = Some t
                /\ getTraitConcept AddOp Ti 1 main_memory
                   = Returns (vconcept t) main_memory
                /\ points_to_Model main_memory (vconcept t) Ti AddOp)
  /\ (forall I, I ∉ class_traits AddOp ->
        getTraitConcept AddOp I 1 main_memory = IllFormed).
Proof.
  apply (getTraitConcept_finds_slot main_memory AddOp 1
           {| dyn_class := AddOp; fields := tt;
              traits := [{| vconcept := 2 |}] |}).
  - exact main_memory_reachable.
  - exact addOp_cell.
  - reflexivity.
  - exact (proj2 (one_trait_declared SideEffectsInterface)).
Defined.

Lemma repeated_trait_cast_ill_formed_witness :
  exists x m' o,
    declare TwiceOp tt main_memory = Returns x m'
    /\ m' !! x = Some (CObject o)
    /\ length (traits o) = length (class_traits TwiceOp)
    /\ NoDup (targets o)
    /\ cast_to_interface SideEffectsInterface TwiceOp x m' = IllFormed.
Proof.
  apply (repeated_trait_cast_ill_formed main_memory TwiceOp tt
           SideEffectsInterface).
  - exact main_memory_reachable.
  - apply list_elem_of_here.
  - vm_compute. discriminate.
Defined.

Lemma cast_null_pointer_witness :
  cast_to_interface SideEffectsInterface AddOp nullptr main_memory
  = Undefined
  /\ cast_to_interface MemoryEffectsInterface AddOp nullptr main_memory
     = Throws (runtime_error "Op does not implement interface") main_memory.
Proof.
  destruct (cast_null_pointer main_memory AddOp SideEffectsInterface
              main_memory_reachable) as [Hdeclared _].
  destruct (cast_null_pointer main_memory AddOp MemoryEffectsInterface
              main_memory_reachable) as [_ Hundeclared].
  split.
  - apply Hdeclared; [apply list_elem_of_here | reflexivity].
  - apply Hundeclared. exact MemoryEffects_undeclared.
Defined.

End LifetimeFacts.

(** * The loops over a scene and over a zoo *)

Module LoopFacts.

Import External.

Lemma draw_scene_fold (scene : list Drawable) (out : Stdout) :
  draw_scene scene out
  = Done (fold_left (fun o c => DrawableConcept_draw c o)
                    (omap External.pImpl scene) out).
Proof.
  revert out. induction scene as [|[[c|]] scene IH]; intros out; simpl.
  - reflexivity.
  - apply IH.
  - apply IH.
Qed.

Lemma draw_scene_app (s1 s2 : list Drawable) (out : Stdout) :
  draw_scene (s1 ++ s2) out
  = match draw_scene s1 out with
    | Done o => draw_scene s2 o
    | NullDereference => NullDereference
    end.
Proof.
  rewrite (draw_scene_fold s1). simpl.
  by rewrite !draw_scene_fold, omap_app, fold_left_app.
Qed.

(** X11: the drawing loop never dereferences a null [pImpl] and calls
    [draw()] on the model of every wrapper that has one, once each and in
    the order of the vector; wrappers with a null [pImpl] add nothing; and
    drawing two scenes one after the other is drawing their
    concatenation. *)
Theorem draw_scene_each_model_once (s1 s2 : list Drawable) (out : Stdout) :
  draw_scene s1 out
  = Done (fold_left (fun o c => DrawableConcept_draw c o)
                    (omap External.pImpl s1) out)
  /\ exists o, draw_scene s1 out = Done o
               /\ draw_scene (s1 ++ s2) out = draw_scene s2 o.
Proof.
  split; [apply draw_scene_fold|].
  eexists. split; [apply draw_scene_fold|].
  by rewrite draw_scene_app, draw_scene_fold.
Qed.

(** X12: drawing a scene after [emplace_back] of one more object writes
    what drawing the scene without it writes, followed by what the object's
    own member writes: [render()] for the two external types, [draw()] for
    any conforming type. *)
Theorem draw_scene_emplace_back (scene : list Drawable) (out : Stdout) :
  exists o,
    draw_scene scene out = Done o
    /\ (forall c : ExternalCircle,
          draw_scene (emplace_back scene c) out
          = Done (ExternalCircle_render c o))
    /\ (forall s : ExternalSquare,
          draw_scene (emplace_back scene s) out
          = Done (ExternalSquare_render s o))
    /\ (forall (T : Type) (H : Conforming T) (item : T),
          draw_scene (emplace_back scene item) out = Done (draw item o)).
Proof.
  eexists. split; [apply draw_scene_fold|].
  split; [|split]; intros; unfold emplace_back;
    by rewrite draw_scene_app, draw_scene_fold.
Qed.

(** X13: the loop over a zoo never dereferences a null [pImpl] and calls
    [makeNoise()] on the animal of every wrapper that has one, once each
    and in the order of the vector; and after [emplace_back] of one more
    animal it writes what it wrote before followed by that animal's own
    [makeNoise()]. *)
Theorem noise_of_zoo_each_animal_once (zoo : list Zoo.Animal) (out : Stdout) :
  Zoo.noise_of_zoo zoo out
  = Done (fold_left (fun o c => Zoo.AnimalConcept_makeNoise c o)
                    (omap Zoo.pImpl zoo) out)
  /\ (forall (T : Type) (H : Zoo.Noisy T) (animal : T),
        exists o, Zoo.noise_of_zoo zoo out = Done o
                  /\ Zoo.noise_of_zoo (Zoo.emplace_back zoo animal) out
                     = Done (Zoo.makeNoise animal o)).
Proof.
  assert (forall z o,
            Zoo.noise_of_zoo z o
            = Done (fold_left (fun o c => Zoo.AnimalConcept_makeNoise c o)
                              (omap Zoo.pImpl z) o)) as Hloop.
  { induction z as [|[[c|]] z IH]; intros o; simpl;
      [reflexivity | apply IH | apply IH]. }
  split; [apply Hloop|].
  intros T H animal. eexists. split; [apply Hloop|].
  unfold Zoo.emplace_back. rewrite Hloop, omap_app, fold_left_app. done.
Qed.

End LoopFacts.
